(** * LFUCache: a shallow embedding of [src/LFUCache.cpp]

    The C++ class [LFUCache<K, V>] keeps two hash maps

      - [mKeysByFreq]   : frequency -> list of keys, most recently used first,
      - [mKeyMetaByKey] : key -> (list iterator, frequency, value),

    together with the capacity and the running minimum frequency.

    Modelling choices, all taken from the source:

      - [std::unordered_map] is a [gmap]; [operator[]] default-constructs a
        missing entry, which is written out ([subscript], [meta_subscript]
        and the [<[ _ := _ ]>] that follows every access through it);
      - [std::list<K>] is a [list K], head = [begin()], last = [back()];
      - a [std::list] iterator is a handle on one node.  The class never moves
        a node between lists, and a node holds its key, so a handle is
        modelled by the frequency of the list that owns the node ([None] is
        the value-initialised, singular iterator); [erase] through a handle
        that does not designate a node of the list is undefined behaviour;
      - [int] is [Z] restricted to 32 bits: signed overflow is undefined
        behaviour in C++, so [int_succ] has no result at [INT_MAX];
      - [size_t] is a 64 bit unsigned integer; an [int] argument passed where
        a [size_t] is expected is converted modulo [2^64];
      - a member function returns [Ok] with the new state, [Throw] when the
        source throws, [Undef] when the source has undefined behaviour
        ([back()] or [pop_back()] on an empty list, [erase] of a foreign
        iterator, signed overflow).

    The operations of the cache are [contains], [empty], [size], [get] and
    [put]; [reachable] states are those that calls of these five produce
    from a constructed cache.  [touch] and [evict] are the helpers of [get]
    and [put]; the class leaves them public, and [reachable_public] counts
    them in. *)

From stdpp Require Import gmap list sorting.
From Stdlib Require Import ZArith String Lia.

Local Open Scope Z_scope.
#[local] Set Warnings "-clear-no-such-hyp".

(** ** Results of member functions *)

Inductive res (A : Type) : Type :=
  | Ok (a : A)
  | Throw (what : string)
  | Undef.

Arguments Ok {A} a.
Arguments Throw {A} what.
Arguments Undef {A}.

Definition bind {A B : Type} (m : res A) (f : A → res B) : res B :=
  match m with
  | Ok a => f a
  | Throw w => Throw w
  | Undef => Undef
  end.

Notation "'let!' x ':=' m 'in' k" := (bind m (fun x => k))
  (at level 10, x name, m at level 100, k at level 200).

Ltac goal_decide :=
  match goal with
  | |- context [@decide ?P ?d] => destruct (@decide P d)
  end.

Ltac goal_bool_decide :=
  match goal with
  | |- context [@bool_decide ?P ?d] => destruct (@bool_decide_reflect P d)
  end.

(** ** Machine integers *)

Definition INT_MAX : Z := 2147483647.
Definition SIZE_MAX : Z := 18446744073709551615.

(** [x + 1] on [int]: undefined at [INT_MAX]. *)
Definition int_succ (x : Z) : res Z :=
  if bool_decide (x < INT_MAX) then Ok (x + 1) else Undef.

(** Implicit conversion of an integer argument to [size_t]. *)
Definition to_size_t (n : Z) : Z := n mod (SIZE_MAX + 1).

(** ** [std::list] primitives *)

(** [l.erase(it)] where [it] designates the node holding [k]: the node is
    unlinked; no result when no node of [l] holds [k].  (The lists of a
    reachable cache hold every key at most once, see [Inv], so the first
    node holding [k] is the node.) *)
Fixpoint list_erase {K} `{EqDecision K} (k : K) (l : list K)
    : option (list K) :=
  match l with
  | [] => None
  | x :: l' => if decide (x = k) then Some l' else cons x <$> list_erase k l'
  end.

(** [concept DefaultContructible]: the value type has a default constructor;
    [defaultVal] is [V()]. *)
Class DefaultContructible (V : Type) : Type := defaultVal : V.

Section LFU.
Context {K : Type} `{Countable K}.
Context {V : Type} `{DefaultContructible V}.

(** [struct KeyMeta { LstIter iter; int freq; V val; }] *)
Record KeyMeta : Type := mkKeyMeta {
  iter : option Z;
  freq : Z;
  val : V;
}.

Record LFUCache : Type := mkLFUCache {
  mCapacity : Z;
  mMinFreq : Z;
  mKeysByFreq : gmap Z (list K);
  mKeyMetaByKey : gmap K KeyMeta;
}.

(** [mKeysByFreq[f]]: the list found, or the empty list that [operator[]]
    creates. *)
Definition subscript (m : gmap Z (list K)) (f : Z) : list K :=
  default [] (m !! f).

(** [mKeyMetaByKey[key]]: the entry found, or the value-initialised one
    that [operator[]] creates. *)
Definition meta_subscript (m : gmap K KeyMeta) (key : K) : KeyMeta :=
  default (mkKeyMeta None 0 defaultVal) (m !! key).

(** The constructor; [capacity] is a [size_t]. *)
Definition LFUCache_ctor (capacity : Z) : res LFUCache :=
  if bool_decide (capacity ≤ 0)
  then Throw "Capacity cannot be less than or equal to zero."
  else Ok (mkLFUCache capacity 0 ∅ ∅).

(** A call [LFUCache<K, V> cache(n)] with an integer expression [n]. *)
Definition construct (n : Z) : res LFUCache :=
  LFUCache_ctor (to_size_t n).

Definition contains (c : LFUCache) (key : K) : bool :=
  bool_decide (is_Some (mKeyMetaByKey c !! key)).

Definition empty (c : LFUCache) : bool :=
  bool_decide (mKeyMetaByKey c = ∅).

Definition size (c : LFUCache) : Z :=
  Z.of_nat (base.size (mKeyMetaByKey c)).

Definition touch (c : LFUCache) (key : K) : res LFUCache :=
  let keyMeta := meta_subscript (mKeyMetaByKey c) key in
  let metas0 := <[key := keyMeta]> (mKeyMetaByKey c) in
  let oldFreq := freq keyMeta in
  let! newFreq := int_succ oldFreq in
  match iter keyMeta with
  | None => Undef
  | Some owner =>
    if bool_decide (owner = oldFreq) then
      match list_erase key (subscript (mKeysByFreq c) oldFreq) with
      | None => Undef
      | Some rest =>
        let lists1 := <[oldFreq := rest]> (mKeysByFreq c) in
        let metas1 :=
          <[key := mkKeyMeta (iter keyMeta) newFreq (val keyMeta)]> metas0 in
        let lists2 := <[newFreq := key :: subscript lists1 newFreq]> lists1 in
        let metas2 :=
          <[key := mkKeyMeta (Some newFreq) newFreq (val keyMeta)]> metas1 in
        let lists3 :=
          <[mMinFreq c := subscript lists2 (mMinFreq c)]> lists2 in
        if bool_decide (subscript lists2 (mMinFreq c) = []) then
          let! minFreq := int_succ (mMinFreq c) in
          Ok (mkLFUCache (mCapacity c) minFreq lists3 metas2)
        else
          Ok (mkLFUCache (mCapacity c) (mMinFreq c) lists3 metas2)
      end
    else Undef
  end.

Definition evict (c : LFUCache) : res LFUCache :=
  let l := subscript (mKeysByFreq c) (mMinFreq c) in
  match last l with
  | None => Undef
  | Some key =>
    Ok (mkLFUCache (mCapacity c) (mMinFreq c)
          (<[mMinFreq c := removelast l]> (mKeysByFreq c))
          (delete key (mKeyMetaByKey c)))
  end.

Definition put (c : LFUCache) (key : K) (v : V) : res LFUCache :=
  if contains c key then
    let! c1 := touch c key in
    let m := meta_subscript (mKeyMetaByKey c1) key in
    Ok (mkLFUCache (mCapacity c1) (mMinFreq c1) (mKeysByFreq c1)
          (<[key := mkKeyMeta (iter m) (freq m) v]> (mKeyMetaByKey c1)))
  else
    let! c1 :=
      (if bool_decide (size c = mCapacity c) then evict c else Ok c) in
    let lists :=
      <[1 := key :: subscript (mKeysByFreq c1) 1]> (mKeysByFreq c1) in
    Ok (mkLFUCache (mCapacity c1) 1 lists
          (<[key := mkKeyMeta (Some 1) 1 v]> (mKeyMetaByKey c1))).

Definition get (c : LFUCache) (key : K) : res (LFUCache * V) :=
  if contains c key then
    let! c1 := touch c key in
    let m := meta_subscript (mKeyMetaByKey c1) key in
    Ok (mkLFUCache (mCapacity c1) (mMinFreq c1) (mKeysByFreq c1)
          (<[key := m]> (mKeyMetaByKey c1)), val m)
  else
    let! c1 := put c key defaultVal in
    Ok (c1, defaultVal).

(** ** The operations of the cache as a state machine *)

Inductive op : Type :=
  | OpContains (key : K)
  | OpEmpty
  | OpSize
  | OpGet (key : K)
  | OpPut (key : K) (v : V).

Inductive out : Type :=
  | OutBool (b : bool)
  | OutSize (n : Z)
  | OutVal (v : V)
  | OutVoid.

Definition step (c : LFUCache) (o : op) : res (LFUCache * out) :=
  match o with
  | OpContains key => Ok (c, OutBool (contains c key))
  | OpEmpty => Ok (c, OutBool (empty c))
  | OpSize => Ok (c, OutSize (size c))
  | OpGet key => let! r := get c key in Ok (r.1, OutVal r.2)
  | OpPut key v => let! c1 := put c key v in Ok (c1, OutVoid)
  end.

(** Runs a sequence of calls, first call first. *)
Fixpoint run (c : LFUCache) (ops : list op) : res LFUCache :=
  match ops with
  | [] => Ok c
  | o :: ops' => let! r := step c o in run r.1 ops'
  end.

(** [reachable_by h c]: [c] is the state after the calls of [h] on a
    freshly constructed cache; [h] lists the calls latest first. *)
Inductive reachable_by : list op → LFUCache → Prop :=
  | reachable_ctor capacity c :
      LFUCache_ctor capacity = Ok c → reachable_by [] c
  | reachable_step h c o c' r :
      reachable_by h c → step c o = Ok (c', r) → reachable_by (o :: h) c'.

Definition reachable (c : LFUCache) : Prop := ∃ h, reachable_by h c.

(** The class declares every member function after its one [public:] label,
    so [touch] and [evict] can be called from outside as well. *)
Inductive member : Type :=
  | MOp (o : op)
  | MTouch (key : K)
  | MEvict.

Definition call (c : LFUCache) (m : member) : res (LFUCache * out) :=
  match m with
  | MOp o => step c o
  | MTouch key => let! c1 := touch c key in Ok (c1, OutVoid)
  | MEvict => let! c1 := evict c in Ok (c1, OutVoid)
  end.

(** The states that calls of any member function can produce. *)
Inductive reachable_public : LFUCache → Prop :=
  | public_ctor capacity c :
      LFUCache_ctor capacity = Ok c → reachable_public c
  | public_call c m c' r :
      reachable_public c → call c m = Ok (c', r) → reachable_public c'.

(** The keys a call touches: [get] and [put] touch their key. *)
Definition touches (o : op) (k : K) : bool :=
  match o with
  | OpGet key | OpPut key _ => bool_decide (key = k)
  | _ => false
  end.

(** Number of calls made since [k] was last touched. *)
Fixpoint age (h : list op) (k : K) : option nat :=
  match h with
  | [] => None
  | o :: h' => if touches o k then Some 0%nat else S <$> age h' k
  end.

(** [a] was touched more recently than [b]. *)
Definition fresher (h : list op) (a b : K) : Prop :=
  ∃ ta tb, age h a = Some ta ∧ age h b = Some tb ∧ (ta < tb)%nat.


(** The keys that the calls of [h] touch. *)
Fixpoint touched (h : list op) : gset K :=
  match h with
  | [] => ∅
  | OpGet key :: h' | OpPut key _ :: h' => {[key]} ∪ touched h'
  | _ :: h' => touched h'
  end.

(** Observations of the state. *)
Definition freq_of (c : LFUCache) (k : K) : option Z :=
  freq <$> mKeyMetaByKey c !! k.
Definition val_of (c : LFUCache) (k : K) : option V :=
  val <$> mKeyMetaByKey c !! k.
Definition keys (c : LFUCache) : gset K := dom (mKeyMetaByKey c).
Definition bucket (c : LFUCache) (f : Z) : list K :=
  subscript (mKeysByFreq c) f.

(** ** The representation invariant (I1 to I4 of the data model) *)

Record Inv (c : LFUCache) : Prop := mkInv {
  inv_cap : 1 ≤ mCapacity c;
  inv_size : size c ≤ mCapacity c;
  inv_meta : ∀ k m, mKeyMetaByKey c !! k = Some m →
    iter m = Some (freq m) ∧ 1 ≤ freq m ≤ INT_MAX ∧ k ∈ bucket c (freq m);
  inv_list : ∀ f k, k ∈ bucket c f →
    ∃ m, mKeyMetaByKey c !! k = Some m ∧ freq m = f;
  inv_nodup : ∀ f, NoDup (bucket c f);
  inv_min : mKeyMetaByKey c ≠ ∅ →
    bucket c (mMinFreq c) ≠ [] ∧
    ∀ k m, mKeyMetaByKey c !! k = Some m → mMinFreq c ≤ freq m;
}.

(** What the history of calls adds: every list is ordered by recency, and
    no frequency exceeds the number of calls made. *)
Record HInv (h : list op) (c : LFUCache) : Prop := mkHInv {
  hinv_age : ∀ k, is_Some (mKeyMetaByKey c !! k) → is_Some (age h k);
  hinv_sorted : ∀ f, StronglySorted (fresher h) (bucket c f);
  hinv_freq : ∀ k m, mKeyMetaByKey c !! k = Some m →
    freq m ≤ Z.of_nat (List.length h);
}.

(** ** Vocabulary of the proofs *)

(** [c'] is [c] after the key [k], of entry [m], has moved from the list of
    [freq m] to the head of the list of [freq m + 1], with value [v]. *)
Definition is_touch (c : LFUCache) (k : K) (m : KeyMeta) (v : V)
    (l1 l2 : list K) (c' : LFUCache) : Prop :=
  bucket c (freq m) = l1 ++ k :: l2 ∧
  mCapacity c' = mCapacity c ∧
  mKeyMetaByKey c' =
    <[k := mkKeyMeta (Some (freq m + 1)) (freq m + 1) v]> (mKeyMetaByKey c) ∧
  (∀ g, bucket c' g =
    if decide (g = freq m + 1) then k :: bucket c g
    else if decide (g = freq m) then l1 ++ l2 else bucket c g) ∧
  mMinFreq c' =
    (if bool_decide (l1 ++ l2 = [] ∧ freq m = mMinFreq c)
     then mMinFreq c + 1 else mMinFreq c).

(** The invariant less its two clauses on the size and on [mMinFreq]: what
    holds between the eviction and the insertion of a [put]. *)
Record Wf (c : LFUCache) : Prop := mkWf {
  wf_cap : 1 ≤ mCapacity c;
  wf_meta : ∀ k m, mKeyMetaByKey c !! k = Some m →
    iter m = Some (freq m) ∧ 1 ≤ freq m ≤ INT_MAX ∧ k ∈ bucket c (freq m);
  wf_list : ∀ f k, k ∈ bucket c f →
    ∃ m, mKeyMetaByKey c !! k = Some m ∧ freq m = f;
  wf_nodup : ∀ f, NoDup (bucket c f);
}.

(** [c1] is [c] less the key [e] at the back of the list of [mMinFreq c]. *)
Definition is_evict (c : LFUCache) (e : K) (l' : list K) (c1 : LFUCache)
    : Prop :=
  bucket c (mMinFreq c) = l' ++ [e] ∧
  mCapacity c1 = mCapacity c ∧
  mMinFreq c1 = mMinFreq c ∧
  mKeyMetaByKey c1 = delete e (mKeyMetaByKey c) ∧
  (∀ g, bucket c1 g = if decide (g = mMinFreq c) then l' else bucket c g).

(** The last four statements of [put]: the insertion of a new key. *)
Definition put_fresh (c1 : LFUCache) (key : K) (v : V) : LFUCache :=
  mkLFUCache (mCapacity c1) 1
    (<[1 := key :: subscript (mKeysByFreq c1) 1]> (mKeysByFreq c1))
    (<[key := mkKeyMeta (Some 1) 1 v]> (mKeyMetaByKey c1)).

End LFU.

(** ** The instance [template class LFUCache<int, int>] *)

#[export] Instance int_default : DefaultContructible Z := 0.

Definition int_op : Type := @op Z Z.
Definition int_cache : Type := @LFUCache Z _ _ Z.

(** The cache of capacity [capacity] after the calls [ops]. *)
Definition cache_after (capacity : Z) (ops : list int_op) : int_cache :=
  match (let! c := LFUCache_ctor capacity in run c ops) with
  | Ok c => c
  | _ => mkLFUCache 0 0 ∅ ∅
  end.

(** Third block of [main], up to [get(3)]: keys 1, 2, 3 with frequencies
    2, 4, 2; key 1 was touched before key 3. *)
Definition many_ops : list int_op :=
  [OpPut 1 1; OpGet 1; OpPut 2 2; OpGet 2; OpPut 2 4; OpGet 2;
   OpPut 3 3; OpGet 3].

Definition many : int_cache := cache_after 3 many_ops.

(** [many] after [put(4, 4)], which evicts key 1, and after [get(2)]. *)
Definition many_then_put : int_cache := cache_after 3 (many_ops ++ [OpPut 4 4]).
Definition many_then_get : int_cache := cache_after 3 (many_ops ++ [OpGet 2]).

(** First block of [main] up to [put(2, 2)], on capacity 1. *)
Definition one_ops : list int_op := [OpPut 1 1; OpGet 1; OpPut 2 2].
Definition one : int_cache := cache_after 1 one_ops.

(** A cache of capacity 2 with key 1 of frequency 2 and key 2 of
    frequency 1, on which [evict()] is then called directly. *)
Definition two_keys : int_cache :=
  cache_after 2 [OpPut 1 1; OpGet 1; OpPut 2 2].

Definition after_direct_evict : int_cache :=
  match evict two_keys with
  | Ok c => c
  | _ => two_keys
  end.

(** ** [main]: the scenario runner

    A block of [main] constructs a cache and runs statements on it: calls of
    [put], and [assert]s on [size()], [empty()], [contains(key)] and
    [get(key)] (which is evaluated, side effect included, by its [assert]).
    A failed [assert] ends the program; [exec_block] returns [false]
    there. *)

Inductive stmt : Type :=
  | SPut (key v : Z)
  | AssertSize (n : Z)
  | AssertEmpty (b : bool)
  | AssertContains (key : Z) (b : bool)
  | AssertGet (key v : Z).

Fixpoint exec_block (c : int_cache) (ss : list stmt) : res bool :=
  match ss with
  | [] => Ok true
  | SPut key v :: ss' => let! c1 := put c key v in exec_block c1 ss'
  | AssertSize n :: ss' =>
      if bool_decide (size c = n) then exec_block c ss' else Ok false
  | AssertEmpty b :: ss' =>
      if bool_decide (empty c = b) then exec_block c ss' else Ok false
  | AssertContains key b :: ss' =>
      if bool_decide (contains c key = b) then exec_block c ss' else Ok false
  | AssertGet key v :: ss' =>
      let! r := get c key in
      if bool_decide (r.2 = v) then exec_block r.1 ss' else Ok false
  end.

Definition block (capacity : Z) (ss : list stmt) : res bool :=
  let! c := LFUCache_ctor capacity in exec_block c ss.

(** Lines 158 to 183. *)
Definition main_block1 : list stmt :=
  [AssertSize 0; AssertEmpty true;
   SPut 1 1; AssertSize 1; AssertEmpty false; AssertContains 1 true;
   AssertGet 1 1;
   SPut 2 2; AssertSize 1; AssertEmpty false; AssertContains 1 false;
   AssertContains 2 true; AssertGet 2 2;
   SPut 2 3; AssertSize 1; AssertEmpty false; AssertContains 1 false;
   AssertContains 2 true; AssertGet 2 3].

(** Lines 185 to 202. *)
Definition main_block2 : list stmt :=
  [AssertSize 0; AssertEmpty true;
   SPut 1 1; AssertSize 1; AssertEmpty false; AssertContains 1 true;
   AssertGet 1 1;
   AssertGet 2 0; AssertSize 1; AssertEmpty false; AssertContains 1 false;
   AssertContains 2 true].

(** Lines 204 to 265. *)
Definition main_block3 : list stmt :=
  [AssertSize 0; AssertEmpty true;
   SPut 1 1; AssertSize 1; AssertEmpty false; AssertContains 1 true;
   AssertGet 1 1;
   SPut 2 2; AssertSize 2; AssertEmpty false; AssertContains 1 true;
   AssertContains 2 true; AssertGet 2 2;
   SPut 2 4; AssertSize 2; AssertEmpty false; AssertContains 1 true;
   AssertContains 2 true; AssertGet 2 4;
   SPut 3 3; AssertSize 3; AssertEmpty false; AssertContains 1 true;
   AssertContains 2 true; AssertContains 3 true; AssertGet 3 3;
   SPut 4 4; AssertSize 3; AssertEmpty false; AssertContains 1 false;
   AssertContains 2 true; AssertContains 3 true; AssertContains 4 true;
   AssertGet 4 4;
   SPut 4 5; AssertSize 3; AssertEmpty false; AssertContains 1 false;
   AssertContains 2 true; AssertContains 3 true; AssertContains 4 true;
   AssertGet 4 5;
   SPut 5 5; AssertSize 3; AssertEmpty false; AssertContains 1 false;
   AssertContains 2 true; AssertContains 3 false; AssertContains 4 true;
   AssertContains 5 true; AssertGet 5 5].

(** Lines 267 to 301. *)
Definition main_block4 : list stmt :=
  [AssertSize 0; AssertEmpty true;
   SPut 1 1; AssertSize 1; AssertEmpty false; AssertContains 1 true;
   AssertGet 1 1;
   SPut 2 2; AssertSize 2; AssertEmpty false; AssertContains 1 true;
   AssertContains 2 true; AssertGet 2 2;
   SPut 3 3; AssertSize 3; AssertEmpty false; AssertContains 1 true;
   AssertContains 2 true; AssertContains 3 true; AssertGet 3 3;
   AssertGet 4 0; AssertSize 3; AssertEmpty false; AssertContains 1 false;
   AssertContains 2 true; AssertContains 3 true; AssertContains 4 true].

(** [main]: the four blocks in turn; [Ok true] when no [assert] fails. *)
Definition main : res bool :=
  let! b1 := block 1 main_block1 in
  if negb b1 then Ok false else
  let! b2 := block 1 main_block2 in
  if negb b2 then Ok false else
  let! b3 := block 3 main_block3 in
  if negb b3 then Ok false else
  block 3 main_block4.

Section LFU_proofs.
Context {K : Type} `{Countable K}.
Context {V : Type} `{DefaultContructible V}.

Local Abbreviation LFUCache := (@LFUCache K _ _ V) (only parsing).
Local Abbreviation KeyMeta := (@KeyMeta V) (only parsing).
Local Abbreviation op := (@op K V) (only parsing).
Local Abbreviation out := (@out V) (only parsing).
Local Abbreviation LFUCache_ctor := (@LFUCache_ctor K _ _ V) (only parsing).
Local Abbreviation construct := (@construct K _ _ V) (only parsing).

(** ** Lemmas on the list primitives *)

Lemma list_erase_split (k : K) (l rest : list K) :
  list_erase k l = Some rest →
  ∃ l1 l2, l = l1 ++ k :: l2 ∧ rest = l1 ++ l2 ∧ k ∉ l1.
Proof.
  revert rest. induction l as [|x l IH]; intros rest; simpl; [done|].
  destruct (decide (x = k)) as [->|Hne].
  - intros [= <-]. exists [], l. split_and!; [done..|]. apply not_elem_of_nil.
  - destruct (list_erase k l) as [r|] eqn:E; simpl; [|done].
    intros [= <-]. destruct (IH r eq_refl) as (l1 & l2 & -> & -> & Hnin).
    exists (x :: l1), l2. split_and!; [done..|].
    rewrite not_elem_of_cons. auto.
Qed.

Lemma list_erase_elem_of (k : K) (l : list K) :
  k ∈ l → is_Some (list_erase k l).
Proof.
  induction l as [|x l IH]; [by intros ?%elem_of_nil|].
  intros Hin. simpl. destruct (decide (x = k)); [by eexists|].
  apply elem_of_cons in Hin as [->|Hin]; [done|].
  destruct (IH Hin) as [r ->]. by eexists.
Qed.

Lemma last_removelast (l : list K) (e : K) :
  last l = Some e → l = removelast l ++ [e].
Proof.
  intros (l' & ->)%last_Some. by rewrite removelast_last.
Qed.

Lemma StronglySorted_weaken (R R' : K → K → Prop) (l : list K) :
  (∀ a b, a ∈ l → b ∈ l → R a b → R' a b) →
  StronglySorted R l → StronglySorted R' l.
Proof.
  induction l as [|x l IH]; intros HR Hs; [constructor|].
  apply StronglySorted_cons in Hs as [Hall Hs].
  apply StronglySorted_cons. split.
  - rewrite Forall_forall in Hall |- *. intros y Hy.
    apply HR; [left | by right | by apply Hall].
  - apply IH; [|done]. intros a b Ha Hb. apply HR; by right.
Qed.

(** ** Lemmas on [operator[]] *)

Lemma subscript_insert (m : gmap Z (list K)) (f g : Z) (l : list K) :
  subscript (<[f := l]> m) g = if decide (g = f) then l else subscript m g.
Proof.
  unfold subscript. destruct (decide (g = f)) as [->|Hne].
  - by rewrite lookup_insert_eq.
  - by rewrite lookup_insert_ne.
Qed.

Lemma meta_subscript_Some (ms : gmap K KeyMeta) (k : K) (m : KeyMeta) :
  ms !! k = Some m → meta_subscript ms k = m.
Proof. unfold meta_subscript. by intros ->. Qed.

Lemma contains_true (c : LFUCache) (k : K) :
  contains c k = true ↔ is_Some (mKeyMetaByKey c !! k).
Proof. unfold contains. by rewrite bool_decide_eq_true. Qed.

Lemma contains_false (c : LFUCache) (k : K) :
  contains c k = false ↔ mKeyMetaByKey c !! k = None.
Proof.
  unfold contains. rewrite bool_decide_eq_false. by rewrite eq_None_not_Some.
Qed.

Lemma int_succ_lt (x : Z) : x < INT_MAX → int_succ x = Ok (x + 1).
Proof. intros Hx. unfold int_succ. by rewrite bool_decide_eq_true_2. Qed.

(** ** Lemmas on recency *)

Lemma age_touched (o : op) (h : list op) (k : K) :
  touches o k = true → age (o :: h) k = Some 0%nat.
Proof. simpl. by intros ->. Qed.

Lemma age_untouched (o : op) (h : list op) (k : K) :
  touches o k = false → age (o :: h) k = S <$> age h k.
Proof. simpl. by intros ->. Qed.

Lemma fresher_untouched (o : op) (h : list op) (a b : K) :
  touches o a = false → touches o b = false →
  fresher h a b → fresher (o :: h) a b.
Proof.
  intros Ha Hb (ta & tb & Hta & Htb & Hlt).
  exists (S ta), (S tb). rewrite !age_untouched, Hta, Htb by done.
  split_and!; [done..|lia].
Qed.

Lemma fresher_touched (o : op) (h : list op) (a b : K) :
  touches o a = true → touches o b = false → is_Some (age h b) →
  fresher (o :: h) a b.
Proof.
  intros Ha Hb [tb Htb]. exists 0%nat, (S tb).
  rewrite age_touched, age_untouched, Htb by done.
  split_and!; [done..|lia].
Qed.

Lemma sorted_untouched (o : op) (h : list op) (l : list K) :
  (∀ x, x ∈ l → touches o x = false) →
  StronglySorted (fresher h) l → StronglySorted (fresher (o :: h)) l.
Proof.
  intros Hl. apply StronglySorted_weaken.
  intros a b Ha Hb. apply fresher_untouched; auto.
Qed.

(** ** What [touch], [evict] and the two paths of [put] compute *)

Lemma inv_nonempty (c : LFUCache) (k : K) (m : KeyMeta) :
  mKeyMetaByKey c !! k = Some m → mKeyMetaByKey c ≠ ∅.
Proof.
  intros Hk Hempty. rewrite Hempty in Hk. by rewrite lookup_empty in Hk.
Qed.

Lemma touch_spec (c : LFUCache) (k : K) (m : KeyMeta) :
  Inv c → mKeyMetaByKey c !! k = Some m → freq m < INT_MAX →
  ∃ l1 l2 c', touch c k = Ok c' ∧ is_touch c k m (val m) l1 l2 c'.
Proof.
  intros HI Hk Hlt.
  destruct (inv_meta c HI k m Hk) as (Hit & Hrange & Hin).
  destruct (inv_min c HI (inv_nonempty c k m Hk)) as [Hne Hmin].
  specialize (Hmin k m Hk).
  destruct (list_erase_elem_of k _ Hin) as [rest Hrest].
  destruct (list_erase_split k _ rest Hrest) as (l1 & l2 & Hl & -> & _).
  unfold bucket in *.
  assert (Hsub2 : subscript
      (<[freq m + 1 := k :: subscript (<[freq m := l1 ++ l2]> (mKeysByFreq c))
                              (freq m + 1)]>
         (<[freq m := l1 ++ l2]> (mKeysByFreq c))) (mMinFreq c) =
      if decide (mMinFreq c = freq m) then l1 ++ l2
      else subscript (mKeysByFreq c) (mMinFreq c)).
  { rewrite !subscript_insert. repeat case_decide; try lia; done. }
  unfold is_touch, bucket, touch.
  rewrite (meta_subscript_Some _ _ _ Hk), (int_succ_lt _ Hlt).
  simpl. rewrite Hit, bool_decide_eq_true_2 by done. rewrite Hrest.
  rewrite Hsub2, !insert_insert_eq.
  destruct (decide (l1 ++ l2 = [] ∧ freq m = mMinFreq c)) as [[Hnil Heq]|Hb].
  - rewrite decide_True, bool_decide_eq_true_2 by done.
    rewrite int_succ_lt by lia. simpl.
    exists l1, l2. eexists. split; [reflexivity|]. simpl.
    split_and!; [done..| |by rewrite bool_decide_eq_true_2].
    intros g. rewrite !subscript_insert, <- Heq.
    repeat case_decide; subst; try lia; done.
  - rewrite (bool_decide_eq_false_2 (_ = [])).
    + exists l1, l2. eexists. split; [reflexivity|]. simpl.
      split_and!; [done..| |by rewrite bool_decide_eq_false_2].
      intros g. rewrite !subscript_insert.
      repeat case_decide; subst; try lia; done.
    + case_decide; [|done]. intros Hnil. apply Hb. done.
Qed.

Lemma is_touch_Inv (c c' : LFUCache) (k : K) (m : KeyMeta) (v : V)
    (l1 l2 : list K) :
  Inv c → mKeyMetaByKey c !! k = Some m → freq m < INT_MAX →
  is_touch c k m v l1 l2 c' → Inv c'.
Proof.
  intros HI Hk Hlt (Hl & Hcap & Hmetas & Hb & Hminf).
  destruct (inv_meta c HI k m Hk) as (Hit & Hrange & Hin).
  destruct (inv_min c HI (inv_nonempty c k m Hk)) as [Hne Hmin].
  pose proof (inv_nodup c HI (freq m)) as Hnd. rewrite Hl in Hnd.
  apply NoDup_app in Hnd as (Hnd1 & Hnd12 & Hnd2).
  apply NoDup_cons in Hnd2 as [Hk2 Hnd2].
  assert (Hk1 : k ∉ l1).
  { intros Hk1. apply (Hnd12 k Hk1). left. }
  assert (Hfreq_k : ∀ g, k ∈ bucket c g → g = freq m).
  { intros g Hg. destruct (inv_list c HI g k Hg) as (m' & Hm' & <-).
    by simplify_eq. }
  constructor.
  - rewrite Hcap. apply HI.
  - unfold size. rewrite Hcap, Hmetas, map_size_insert_Some by done. apply HI.
  - intros k' m'. rewrite Hmetas, lookup_insert.
    destruct (decide (k = k')) as [Hkk|Hkk].
    + intros [= <-]. subst k'. simpl. split_and!; [done|lia|lia|].
      rewrite Hb, decide_True by done. left.
    + intros Hm'. destruct (inv_meta c HI k' m' Hm') as (Hit' & Hr' & Hin').
      split; [done|]. split; [done|]. rewrite Hb.
      destruct (decide (freq m' = freq m + 1)) as [He|He];
        [|destruct (decide (freq m' = freq m)) as [He'|He']].
      * right. congruence.
      * rewrite He', Hl in Hin'. set_solver.
      * done.
  - intros g k'. rewrite Hb, Hmetas.
    destruct (decide (g = freq m + 1)) as [->|Hg1];
      [|destruct (decide (g = freq m)) as [->|Hg2]]; intros Hin'.
    + apply elem_of_cons in Hin' as [->|Hin'].
      * rewrite lookup_insert_eq. by eexists.
      * destruct (inv_list c HI _ _ Hin') as (m' & Hm' & Hf').
        rewrite lookup_insert_ne; [by eexists|].
        intros <-. simplify_eq. lia.
    + assert (k' ∈ bucket c (freq m)) as Hin''.
      { rewrite Hl. set_solver. }
      destruct (inv_list c HI _ _ Hin'') as (m' & Hm' & Hf').
      rewrite lookup_insert_ne; [by eexists|].
      intros <-. set_solver.
    + destruct (inv_list c HI _ _ Hin') as (m' & Hm' & Hf').
      rewrite lookup_insert_ne; [by eexists|].
      intros <-. simplify_eq.
  - intros g. rewrite Hb.
    destruct (decide (g = freq m + 1)) as [->|Hg1];
      [|destruct (decide (g = freq m)) as [->|Hg2]].
    + apply NoDup_cons. split; [|apply HI].
      intros Hg. specialize (Hfreq_k _ Hg). lia.
    + apply NoDup_app. split_and!; [done| |done].
      intros x Hx1 Hx2. apply (Hnd12 x Hx1). by right.
    + apply HI.
  - intros _. rewrite Hminf, Hmetas. split.
    + rewrite Hb.
      destruct (decide (l1 ++ l2 = [] ∧ freq m = mMinFreq c))
        as [Hcase|Hcase];
        [rewrite bool_decide_eq_true_2 by done
        |rewrite bool_decide_eq_false_2 by done].
      * destruct Hcase as [Hnil Heq]. by rewrite decide_True by lia.
      * specialize (Hmin k m Hk).
        repeat goal_decide; subst; [lia| |done].
        intros Hnil. apply Hcase. split; [done|congruence].
    + intros k' m'. rewrite lookup_insert.
      destruct (decide (k = k')) as [Hkk|Hkk].
      * intros [= <-]. simpl. specialize (Hmin k m Hk).
        goal_bool_decide; lia.
      * intros Hm'. specialize (Hmin k' m' Hm').
        destruct (decide (l1 ++ l2 = [] ∧ freq m = mMinFreq c)) as [Hcase|Hcase];
        [rewrite bool_decide_eq_true_2 by done
        |rewrite bool_decide_eq_false_2 by done]; [|done].
        destruct Hcase as [Hnil Heq].
        destruct (decide (freq m' = freq m)) as [Hff|]; [|lia].
        exfalso. destruct (inv_meta c HI k' m' Hm') as (_ & _ & Hin').
        rewrite Hff, Hl in Hin'.
        apply app_eq_nil in Hnil as [-> ->]. set_solver.
Qed.

Lemma is_touch_HInv (h : list op) (o : op) (c c' : LFUCache) (k : K)
    (m : KeyMeta) (v : V) (l1 l2 : list K) :
  Inv c → HInv h c → mKeyMetaByKey c !! k = Some m →
  (∀ k', touches o k' = bool_decide (k = k')) →
  is_touch c k m v l1 l2 c' → HInv (o :: h) c'.
Proof.
  intros HI HH Hk Ho (Hl & Hcap & Hmetas & Hb & Hminf).
  assert (Hfreq_k : ∀ g, k ∈ bucket c g → g = freq m).
  { intros g Hg. destruct (inv_list c HI g k Hg) as (m' & Hm' & <-).
    by simplify_eq. }
  pose proof (inv_nodup c HI (freq m)) as Hnd. rewrite Hl in Hnd.
  pose proof (hinv_sorted h c HH (freq m)) as Hs. rewrite Hl in Hs.
  assert (Hother : ∀ l : list K, k ∉ l → ∀ x, x ∈ l → touches o x = false).
  { intros l Hkl x Hx. rewrite Ho. apply bool_decide_eq_false_2.
    intros ->. done. }
  constructor.
  - intros k'. rewrite Hmetas, lookup_insert. simpl. rewrite Ho.
    destruct (decide (k = k')) as [Hkk|Hkk].
    + subst. rewrite bool_decide_eq_true_2 by done. by eexists.
    + rewrite bool_decide_eq_false_2 by done. intros Hsome.
      destruct (hinv_age h c HH k' Hsome) as [t ->]. by eexists.
  - intros g. rewrite Hb.
    destruct (decide (g = freq m + 1)) as [->|Hg1];
      [|destruct (decide (g = freq m)) as [->|Hg2]].
    + assert (Hkg : k ∉ bucket c (freq m + 1)).
      { intros Hg. specialize (Hfreq_k _ Hg). lia. }
      apply StronglySorted_cons. split.
      * apply Forall_forall. intros x Hx. apply fresher_touched.
        -- rewrite Ho. by apply bool_decide_eq_true_2.
        -- by apply (Hother _ Hkg).
        -- apply (hinv_age h c HH).
           destruct (inv_list c HI _ _ Hx) as (? & -> & _). by eexists.
      * apply sorted_untouched; [by apply Hother|apply HH].
    + apply sorted_untouched.
      * apply Hother. apply NoDup_app in Hnd as (_ & Hnd12 & Hnd2).
        apply NoDup_cons in Hnd2 as [Hk2 _].
        rewrite elem_of_app. intros [Hk1|?]; [|done].
        apply (Hnd12 k Hk1). left.
      * apply StronglySorted_app in Hs as (H12 & Hs1 & Hs2).
        apply StronglySorted_cons in Hs2 as [_ Hs2].
        apply StronglySorted_app. split_and!; [|done..].
        intros x1 x2 Hx1 Hx2. apply H12; [done|by right].
    + apply sorted_untouched; [|apply HH].
      apply Hother. intros Hg. by specialize (Hfreq_k _ Hg).
  - intros k' m'. rewrite Hmetas, lookup_insert.
    change (List.length (o :: h)) with (S (List.length h)).
    rewrite Nat2Z.inj_succ.
    destruct (decide (k = k')) as [Hkk|Hkk].
    + intros [= <-]. simpl. pose proof (hinv_freq h c HH k m Hk). lia.
    + intros Hm'. pose proof (hinv_freq h c HH k' m' Hm'). lia.
Qed.

Lemma Inv_Wf (c : LFUCache) : Inv c → Wf c.
Proof. intros HI. constructor; apply HI. Qed.

Lemma evict_spec (c : LFUCache) :
  Inv c → mKeyMetaByKey c ≠ ∅ →
  ∃ e l' c1, evict c = Ok c1 ∧ is_evict c e l' c1.
Proof.
  intros HI Hne. destruct (inv_min c HI Hne) as [Hb _].
  unfold bucket in Hb. apply last_is_Some in Hb as [e He].
  pose proof (last_removelast _ _ He) as Hl.
  unfold evict, is_evict, bucket. rewrite He.
  exists e, (removelast (subscript (mKeysByFreq c) (mMinFreq c))).
  eexists. split; [reflexivity|]. simpl. split_and!; [done..|].
  intros g. by rewrite subscript_insert.
Qed.

Lemma is_evict_Wf (c c1 : LFUCache) (e : K) (l' : list K) :
  Inv c → is_evict c e l' c1 → Wf c1 ∧ size c1 = size c - 1.
Proof.
  intros HI (Hl & Hcap & Hminf & Hmetas & Hb).
  pose proof (inv_nodup c HI (mMinFreq c)) as Hnd. rewrite Hl in Hnd.
  apply NoDup_app in Hnd as (Hnd1 & Hnd12 & _).
  assert (He : e ∈ bucket c (mMinFreq c)).
  { rewrite Hl. set_solver. }
  destruct (inv_list c HI _ _ He) as (me & Hme & Hfe).
  split; [constructor|].
  - rewrite Hcap. apply HI.
  - intros k m. rewrite Hmetas, lookup_delete.
    destruct (decide (e = k)) as [->|Hek]; [done|]. intros Hm.
    destruct (inv_meta c HI k m Hm) as (Hit & Hr & Hin).
    split; [done|]. split; [done|]. rewrite Hb.
    destruct (decide (freq m = mMinFreq c)) as [Hf|Hf]; [|done].
    rewrite Hf, Hl in Hin. set_solver.
  - intros g k. rewrite Hb, Hmetas. intros Hin.
    assert (Hin' : k ∈ bucket c g ∧ k ≠ e).
    { destruct (decide (g = mMinFreq c)) as [->|Hg].
      - split; [rewrite Hl; set_solver|].
        intros ->. apply (Hnd12 e Hin). left.
      - split; [done|]. intros ->.
        destruct (inv_list c HI _ _ Hin) as (m' & Hm' & Hf'). simplify_eq. }
    destruct Hin' as [Hin' Hke].
    rewrite lookup_delete_ne by done. by apply (inv_list c HI).
  - intros g. rewrite Hb.
    destruct (decide (g = mMinFreq c)); [done|apply HI].
  - unfold size. rewrite Hmetas, map_size_delete_Some by done.
    assert (base.size (mKeyMetaByKey c) ≠ 0%nat).
    { apply map_size_non_empty_iff. by eapply inv_nonempty. }
    lia.
Qed.

Lemma is_evict_HInv (h : list op) (c c1 : LFUCache) (e : K) (l' : list K) :
  HInv h c → is_evict c e l' c1 → HInv h c1.
Proof.
  intros HH (Hl & Hcap & Hminf & Hmetas & Hb). constructor.
  - intros k. rewrite Hmetas, lookup_delete.
    destruct (decide (e = k)); [by intros [? ?]|apply HH].
  - intros g. rewrite Hb.
    destruct (decide (g = mMinFreq c)) as [->|]; [|apply HH].
    pose proof (hinv_sorted h c HH (mMinFreq c)) as Hs. rewrite Hl in Hs.
    by apply StronglySorted_app_1_l in Hs.
  - intros k m. rewrite Hmetas, lookup_delete.
    destruct (decide (e = k)); [done|apply HH].
Qed.

Lemma put_miss (c : LFUCache) (k : K) (v : V) :
  contains c k = false →
  put c k v =
    let! c1 := (if bool_decide (size c = mCapacity c) then evict c else Ok c)
    in Ok (put_fresh c1 k v).
Proof. intros Hc. unfold put. by rewrite Hc. Qed.

Lemma bucket_put_fresh (c1 : LFUCache) (k : K) (v : V) (g : Z) :
  bucket (put_fresh c1 k v) g =
    if decide (g = 1) then k :: bucket c1 g else bucket c1 g.
Proof.
  unfold bucket, put_fresh. simpl. rewrite subscript_insert.
  by destruct (decide (g = 1)) as [->|].
Qed.

Lemma put_fresh_Inv (c1 : LFUCache) (k : K) (v : V) :
  Wf c1 → size c1 < mCapacity c1 → mKeyMetaByKey c1 !! k = None →
  Inv (put_fresh c1 k v).
Proof.
  intros HW Hsz Hk.
  assert (Hnotin : ∀ g, k ∉ bucket c1 g).
  { intros g Hg. destruct (wf_list c1 HW _ _ Hg) as (m & Hm & _). congruence. }
  constructor.
  - apply HW.
  - unfold size in *. simpl. rewrite map_size_insert_None by done. lia.
  - intros k' m. simpl. rewrite lookup_insert, bucket_put_fresh.
    destruct (decide (k = k')) as [<-|Hkk].
    + intros [= <-]. simpl. split; [done|]. split; [unfold INT_MAX; lia|].
      left.
    + intros Hm. destruct (wf_meta c1 HW _ _ Hm) as (Hit & Hr & Hin).
      split; [done|]. split; [done|].
      destruct (decide (freq m = 1)); [by right|done].
  - intros g k'. rewrite bucket_put_fresh. simpl.
    destruct (decide (g = 1)) as [->|Hg]; intros Hin.
    + apply elem_of_cons in Hin as [->|Hin].
      * rewrite lookup_insert_eq. by eexists.
      * rewrite lookup_insert_ne; [by apply (wf_list c1 HW)|].
        intros <-. by apply (Hnotin 1).
    + rewrite lookup_insert_ne; [by apply (wf_list c1 HW)|].
      intros <-. by apply (Hnotin g).
  - intros g. rewrite bucket_put_fresh.
    destruct (decide (g = 1)); [|apply HW].
    apply NoDup_cons. split; [apply Hnotin|apply HW].
  - intros _. rewrite bucket_put_fresh. simpl. split; [done|].
    intros k' m. rewrite lookup_insert.
    destruct (decide (k = k')) as [<-|Hkk].
    + by intros [= <-].
    + intros Hm. destruct (wf_meta c1 HW _ _ Hm) as (_ & Hr & _). lia.
Qed.

Lemma put_fresh_HInv (h : list op) (o : op) (c1 : LFUCache) (k : K) (v : V) :
  Wf c1 → HInv h c1 → mKeyMetaByKey c1 !! k = None →
  (∀ k', touches o k' = bool_decide (k = k')) →
  HInv (o :: h) (put_fresh c1 k v).
Proof.
  intros HW HH Hk Ho.
  assert (Hother : ∀ g x, x ∈ bucket c1 g → touches o x = false).
  { intros g x Hx. rewrite Ho. apply bool_decide_eq_false_2. intros <-.
    destruct (wf_list c1 HW _ _ Hx) as (m & Hm & _). congruence. }
  constructor.
  - intros k'. simpl. rewrite lookup_insert, Ho.
    destruct (decide (k = k')) as [<-|Hkk].
    + rewrite bool_decide_eq_true_2 by done. by eexists.
    + rewrite bool_decide_eq_false_2 by done. intros Hsome.
      destruct (hinv_age h c1 HH k' Hsome) as [t ->]. by eexists.
  - intros g. rewrite bucket_put_fresh.
    destruct (decide (g = 1)) as [->|Hg].
    + apply StronglySorted_cons. split.
      * apply Forall_forall. intros x Hx. apply fresher_touched.
        -- rewrite Ho. by apply bool_decide_eq_true_2.
        -- by apply (Hother 1).
        -- apply (hinv_age h c1 HH).
           destruct (wf_list c1 HW _ _ Hx) as (? & -> & _). by eexists.
      * apply sorted_untouched; [apply Hother|apply HH].
    + apply sorted_untouched; [apply Hother|apply HH].
  - intros k' m. simpl mKeyMetaByKey. rewrite lookup_insert.
    change (List.length (o :: h)) with (S (List.length h)).
    rewrite Nat2Z.inj_succ.
    destruct (decide (k = k')) as [<-|Hkk].
    + intros [= <-]. simpl. lia.
    + intros Hm. pose proof (hinv_freq h c1 HH k' m Hm). lia.
Qed.

Lemma eta_LFUCache (c : LFUCache) :
  mkLFUCache (mCapacity c) (mMinFreq c) (mKeysByFreq c) (mKeyMetaByKey c) = c.
Proof. by destruct c. Qed.

Lemma put_hit_spec (c : LFUCache) (k : K) (m : KeyMeta) (v : V) :
  Inv c → mKeyMetaByKey c !! k = Some m → freq m < INT_MAX →
  ∃ l1 l2 c', put c k v = Ok c' ∧ is_touch c k m v l1 l2 c'.
Proof.
  intros HI Hk Hlt.
  destruct (touch_spec c k m HI Hk Hlt)
    as (l1 & l2 & c1 & Ht & Hl & Hcap & Hmetas & Hb & Hminf).
  exists l1, l2. eexists. split.
  - unfold put. rewrite (proj2 (contains_true c k)) by by eexists.
    rewrite Ht. simpl. reflexivity.
  - unfold is_touch, bucket in *. simpl.
    rewrite Hmetas. unfold meta_subscript.
    rewrite lookup_insert_eq, insert_insert_eq. simpl. done.
Qed.

Lemma get_hit_spec (c : LFUCache) (k : K) (m : KeyMeta) :
  Inv c → mKeyMetaByKey c !! k = Some m → freq m < INT_MAX →
  ∃ l1 l2 c',
    get c k = Ok (c', val m) ∧ touch c k = Ok c' ∧
    is_touch c k m (val m) l1 l2 c'.
Proof.
  intros HI Hk Hlt.
  destruct (touch_spec c k m HI Hk Hlt) as (l1 & l2 & c1 & Ht & Hc1).
  exists l1, l2, c1. split; [|done].
  destruct Hc1 as (Hl & Hcap & Hmetas & Hb & Hminf).
  unfold get. rewrite (proj2 (contains_true c k)) by by eexists.
  rewrite Ht. simpl. unfold meta_subscript.
  rewrite Hmetas, lookup_insert_eq. simpl.
  rewrite insert_insert_eq, <- Hmetas. by rewrite eta_LFUCache.
Qed.

(** At [INT_MAX] the increment of the frequency overflows. *)
Lemma touch_overflow (c : LFUCache) (k : K) (m : KeyMeta) :
  mKeyMetaByKey c !! k = Some m → freq m = INT_MAX → touch c k = Undef.
Proof.
  intros Hk Hf. unfold touch, int_succ.
  rewrite (meta_subscript_Some _ _ _ Hk), Hf.
  by rewrite bool_decide_eq_false_2.
Qed.

Lemma touch_Ok_lt (c c' : LFUCache) (k : K) (m : KeyMeta) :
  mKeyMetaByKey c !! k = Some m → touch c k = Ok c' → freq m < INT_MAX.
Proof.
  intros Hk. unfold touch, int_succ.
  rewrite (meta_subscript_Some _ _ _ Hk).
  destruct (decide (freq m < INT_MAX)); [done|].
  by rewrite bool_decide_eq_false_2.
Qed.

(** The state between the eviction and the insertion of a [put] of a new
    key. *)
Lemma put_miss_spec (c : LFUCache) (k : K) (v : V) :
  Inv c → mKeyMetaByKey c !! k = None →
  ∃ c1,
    put c k v = Ok (put_fresh c1 k v) ∧
    Wf c1 ∧ size c1 < mCapacity c1 ∧ mKeyMetaByKey c1 !! k = None ∧
    (∀ h, HInv h c → HInv h c1) ∧
    (size c = mCapacity c → ∃ e l', evict c = Ok c1 ∧ is_evict c e l' c1) ∧
    (size c ≠ mCapacity c → c1 = c).
Proof.
  intros HI Hk. rewrite put_miss by by apply contains_false.
  destruct (decide (size c = mCapacity c)) as [Hfull|Hroom].
  - rewrite bool_decide_eq_true_2 by done.
    assert (Hne : mKeyMetaByKey c ≠ ∅).
    { apply map_size_non_empty_iff. pose proof (inv_cap c HI).
      unfold size in Hfull. lia. }
    destruct (evict_spec c HI Hne) as (e & l' & c1 & He & Hc1).
    destruct (is_evict_Wf c c1 e l' HI Hc1) as [HW Hsz].
    exists c1. rewrite He. simpl. split_and!; [done..| | | | |].
    + destruct Hc1 as (_ & -> & _). lia.
    + destruct Hc1 as (_ & _ & _ & -> & _).
      rewrite lookup_delete. by destruct (decide (e = k)).
    + intros h HH. by eapply is_evict_HInv.
    + intros _. by exists e, l'.
    + done.
  - rewrite bool_decide_eq_false_2 by done. exists c. simpl.
    split_and!; [done|by apply Inv_Wf| |done..| |done].
    + pose proof (inv_size c HI). lia.
    + done.
Qed.

(** ** The invariants hold in every reachable state *)

Lemma HInv_untouched (h : list op) (o : op) (c : LFUCache) :
  (∀ k, touches o k = false) → HInv h c → HInv (o :: h) c.
Proof.
  intros Ho HH. constructor.
  - intros k Hk. rewrite age_untouched by done.
    destruct (hinv_age h c HH k Hk) as [t ->]. by eexists.
  - intros f. apply sorted_untouched; [auto|apply HH].
  - intros k m Hm. pose proof (hinv_freq h c HH k m Hm).
    change (List.length (o :: h)) with (S (List.length h)). lia.
Qed.

Lemma put_preserves (h : list op) (o : op) (c c' : LFUCache) (k : K) (v : V) :
  Inv c → HInv h c → (∀ k', touches o k' = bool_decide (k = k')) →
  put c k v = Ok c' → Inv c' ∧ HInv (o :: h) c'.
Proof.
  intros HI HH Ho Hput.
  destruct (mKeyMetaByKey c !! k) as [m|] eqn:Hk.
  - assert (Hlt : freq m < INT_MAX).
    { unfold put in Hput. rewrite (proj2 (contains_true c k)) in Hput
        by by eexists.
      destruct (touch c k) as [c1| |] eqn:Ht; [|done..].
      by eapply touch_Ok_lt. }
    destruct (put_hit_spec c k m v HI Hk Hlt) as (l1 & l2 & c'' & Hp & Ht).
    rewrite Hp in Hput. injection Hput as <-. split.
    + by eapply is_touch_Inv.
    + by eapply is_touch_HInv.
  - destruct (put_miss_spec c k v HI Hk)
      as (c1 & Hp & HW & Hsz & Hk1 & HH1 & _).
    rewrite Hp in Hput. injection Hput as <-. split.
    + by apply put_fresh_Inv.
    + apply put_fresh_HInv; auto.
Qed.

Lemma get_preserves (h : list op) (c c' : LFUCache) (k : K) (v : V) :
  Inv c → HInv h c → get c k = Ok (c', v) →
  Inv c' ∧ HInv (OpGet k :: h) c'.
Proof.
  intros HI HH Hget.
  destruct (mKeyMetaByKey c !! k) as [m|] eqn:Hk.
  - assert (Hlt : freq m < INT_MAX).
    { unfold get in Hget. rewrite (proj2 (contains_true c k)) in Hget
        by by eexists.
      destruct (touch c k) as [c1| |] eqn:Ht; [|done..].
      by eapply touch_Ok_lt. }
    destruct (get_hit_spec c k m HI Hk Hlt)
      as (l1 & l2 & c'' & Hg & _ & Ht).
    rewrite Hg in Hget. injection Hget as <- <-. split.
    + by eapply is_touch_Inv.
    + by eapply is_touch_HInv.
  - unfold get in Hget. rewrite (proj2 (contains_false c k) Hk) in Hget.
    destruct (put c k defaultVal) as [c1| |] eqn:Hp; [|done..].
    simpl in Hget. injection Hget as <- <-.
    by eapply put_preserves.
Qed.

Lemma step_preserves (h : list op) (o : op) (c c' : LFUCache) (r : out) :
  Inv c → HInv h c → step c o = Ok (c', r) → Inv c' ∧ HInv (o :: h) c'.
Proof.
  intros HI HH Hstep. destruct o as [k| | |k|k v]; simpl in Hstep.
  - injection Hstep as <- <-. split; [done|]. by apply HInv_untouched.
  - injection Hstep as <- <-. split; [done|]. by apply HInv_untouched.
  - injection Hstep as <- <-. split; [done|]. by apply HInv_untouched.
  - destruct (get c k) as [[c1 v]| |] eqn:Hg; [|done..].
    simpl in Hstep. injection Hstep as <- <-. by eapply get_preserves.
  - destruct (put c k v) as [c1| |] eqn:Hp; [|done..].
    simpl in Hstep. injection Hstep as <- <-. by eapply put_preserves.
Qed.

Lemma ctor_Ok (capacity : Z) (c : LFUCache) :
  LFUCache_ctor capacity = Ok c ↔
  1 ≤ capacity ∧ c = mkLFUCache capacity 0 ∅ ∅.
Proof.
  unfold LFUCache_ctor. destruct (decide (capacity ≤ 0)).
  - rewrite bool_decide_eq_true_2 by done. split; [done|lia].
  - rewrite bool_decide_eq_false_2 by done. split.
    + intros [= <-]. split; [lia|done].
    + by intros [_ ->].
Qed.

Lemma ctor_Inv (capacity : Z) (c : LFUCache) :
  LFUCache_ctor capacity = Ok c → Inv c ∧ HInv [] c.
Proof.
  intros [Hcap ->]%ctor_Ok. split; constructor; simpl; try done.
  - unfold size. simpl. rewrite map_size_empty. lia.
  - intros f k. unfold bucket, subscript. simpl. rewrite lookup_empty.
    by intros ?%elem_of_nil.
  - intros f. unfold bucket, subscript. simpl. rewrite lookup_empty.
    constructor.
  - intros k. rewrite lookup_empty. by intros [? ?].
  - intros f. unfold bucket, subscript. simpl. rewrite lookup_empty.
    constructor.
Qed.

Lemma reachable_by_Inv (h : list op) (c : LFUCache) :
  reachable_by h c → Inv c ∧ HInv h c.
Proof.
  induction 1 as [capacity c Hc|h c o c' r _ [HI HH] Hstep].
  - by eapply ctor_Inv.
  - by eapply step_preserves.
Qed.

Lemma reachable_Inv (c : LFUCache) : reachable c → Inv c.
Proof. intros [h Hh]. by apply reachable_by_Inv in Hh as [? _]. Qed.

(** ** Definedness and runs *)

Lemma put_defined (c : LFUCache) (k : K) (v : V) :
  Inv c → (∀ m, mKeyMetaByKey c !! k = Some m → freq m < INT_MAX) →
  ∃ c', put c k v = Ok c'.
Proof.
  intros HI Hlt. destruct (mKeyMetaByKey c !! k) as [m|] eqn:Hk.
  - destruct (put_hit_spec c k m v HI Hk (Hlt m eq_refl))
      as (_ & _ & c' & Hp & _). by exists c'.
  - destruct (put_miss_spec c k v HI Hk) as (c1 & Hp & _). by eexists.
Qed.

Lemma get_defined (c : LFUCache) (k : K) :
  Inv c → (∀ m, mKeyMetaByKey c !! k = Some m → freq m < INT_MAX) →
  ∃ c' v, get c k = Ok (c', v).
Proof.
  intros HI Hlt. destruct (mKeyMetaByKey c !! k) as [m|] eqn:Hk.
  - destruct (get_hit_spec c k m HI Hk (Hlt m eq_refl))
      as (_ & _ & c' & Hg & _). by exists c', (val m).
  - destruct (put_miss_spec c k defaultVal HI Hk) as (c1 & Hp & _).
    unfold get. rewrite (proj2 (contains_false c k) Hk), Hp. simpl.
    by eexists _, _.
Qed.

Lemma step_defined (c : LFUCache) (o : op) :
  Inv c →
  (∀ k m, touches o k = true → mKeyMetaByKey c !! k = Some m →
    freq m < INT_MAX) →
  ∃ c' r, step c o = Ok (c', r).
Proof.
  intros HI Hlt. destruct o as [k| | |k|k v]; simpl; [by eexists _, _..| |].
  - destruct (get_defined c k HI) as (c' & v & ->).
    + intros m. apply Hlt. simpl. by apply bool_decide_eq_true_2.
    + simpl. by eexists _, _.
  - destruct (put_defined c k v HI) as (c' & ->).
    + intros m. apply Hlt. simpl. by apply bool_decide_eq_true_2.
    + simpl. by eexists _, _.
Qed.

Lemma step_capacity (o : op) (c c' : LFUCache) (r : out) :
  Inv c → step c o = Ok (c', r) → mCapacity c' = mCapacity c.
Proof.
  intros HI Hstep.
  assert (Hput : ∀ k v c1, put c k v = Ok c1 → mCapacity c1 = mCapacity c).
  { intros k v c1 Hp. destruct (mKeyMetaByKey c !! k) as [m|] eqn:Hk.
    - assert (Hlt : freq m < INT_MAX).
      { unfold put in Hp. rewrite (proj2 (contains_true c k)) in Hp
          by by eexists.
        destruct (touch c k) as [c2| |] eqn:Ht; [|done..].
        by eapply touch_Ok_lt. }
      destruct (put_hit_spec c k m v HI Hk Hlt)
        as (l1 & l2 & c'' & Hp' & _ & Hcap & _).
      rewrite Hp' in Hp. by injection Hp as <-.
    - destruct (put_miss_spec c k v HI Hk)
        as (c2 & Hp' & _ & _ & _ & _ & Hfull & Hroom).
      rewrite Hp' in Hp. injection Hp as <-. simpl.
      destruct (decide (size c = mCapacity c)) as [Hsz|Hsz].
      + destruct (Hfull Hsz) as (e & l' & _ & _ & Hcap & _). done.
      + by rewrite (Hroom Hsz). }
  destruct o as [k| | |k|k v]; simpl in Hstep; try by simplify_eq.
  - destruct (get c k) as [[c1 v]| |] eqn:Hg; [|done..].
    simpl in Hstep. injection Hstep as <- <-.
    destruct (mKeyMetaByKey c !! k) as [m|] eqn:Hk.
    + assert (Hlt : freq m < INT_MAX).
      { unfold get in Hg. rewrite (proj2 (contains_true c k)) in Hg
          by by eexists.
        destruct (touch c k) as [c2| |] eqn:Ht; [|done..].
        by eapply touch_Ok_lt. }
      destruct (get_hit_spec c k m HI Hk Hlt)
        as (l1 & l2 & c'' & Hg' & _ & _ & Hcap & _).
      rewrite Hg' in Hg. by injection Hg as <- <-.
    + unfold get in Hg. rewrite (proj2 (contains_false c k) Hk) in Hg.
      destruct (put c k defaultVal) as [c2| |] eqn:Hp; [|done..].
      simpl in Hg. injection Hg as <- <-. by eapply Hput.
  - destruct (put c k v) as [c1| |] eqn:Hp; [|done..].
    simpl in Hstep. injection Hstep as <- <-. by eapply Hput.
Qed.

Lemma run_reachable_by (ops h : list op) (c c' : LFUCache) :
  reachable_by h c → run c ops = Ok c' → reachable_by (rev ops ++ h) c'.
Proof.
  revert h c. induction ops as [|o ops IH]; intros h c Hr Hrun; simpl in *.
  - by injection Hrun as <-.
  - destruct (step c o) as [[c1 r]| |] eqn:Hstep; [|done..]. simpl in Hrun.
    rewrite <- app_assoc. simpl. eapply IH; [|done].
    by eapply reachable_step.
Qed.

Lemma run_capacity (ops h : list op) (c c' : LFUCache) :
  reachable_by h c → run c ops = Ok c' → mCapacity c' = mCapacity c.
Proof.
  revert h c. induction ops as [|o ops IH]; intros h c Hr Hrun; simpl in *.
  - by injection Hrun as <-.
  - destruct (step c o) as [[c1 r]| |] eqn:Hstep; [|done..]. simpl in Hrun.
    rewrite (IH (o :: h) c1); [| by eapply reachable_step | done].
    eapply step_capacity; [|done]. by apply reachable_by_Inv in Hr as [? _].
Qed.

Lemma run_defined (ops h : list op) (c : LFUCache) :
  reachable_by h c →
  Z.of_nat (List.length h) + Z.of_nat (List.length ops) ≤ INT_MAX →
  ∃ c', run c ops = Ok c'.
Proof.
  revert h c. induction ops as [|o ops IH]; intros h c Hr Hlen; simpl.
  - by eexists.
  - pose proof (reachable_by_Inv h c Hr) as [HI HH].
    change (List.length (o :: ops)) with (S (List.length ops)) in Hlen.
    destruct (step_defined c o HI) as (c1 & r & Hstep).
    { intros k m _ Hm. pose proof (hinv_freq h c HH k m Hm). lia. }
    rewrite Hstep. simpl. apply (IH (o :: h)).
    + by eapply reachable_step.
    + change (List.length (o :: h)) with (S (List.length h)). lia.
Qed.

(** ** Case analysis of a successful [put] or [get] *)

Lemma put_cases (c c' : LFUCache) (k : K) (v : V) :
  Inv c → put c k v = Ok c' →
  (∃ m l1 l2, mKeyMetaByKey c !! k = Some m ∧ freq m < INT_MAX ∧
     is_touch c k m v l1 l2 c') ∨
  (mKeyMetaByKey c !! k = None ∧
   ∃ c1, c' = put_fresh c1 k v ∧ Wf c1 ∧
     ((size c ≠ mCapacity c ∧ c1 = c) ∨
      (size c = mCapacity c ∧ ∃ e l', is_evict c e l' c1))).
Proof.
  intros HI Hput. destruct (mKeyMetaByKey c !! k) as [m|] eqn:Hk.
  - left. assert (Hlt : freq m < INT_MAX).
    { unfold put in Hput. rewrite (proj2 (contains_true c k)) in Hput
        by by eexists.
      destruct (touch c k) as [c1| |] eqn:Ht; [|done..].
      by eapply touch_Ok_lt. }
    destruct (put_hit_spec c k m v HI Hk Hlt) as (l1 & l2 & c'' & Hp & Ht).
    rewrite Hp in Hput. injection Hput as <-. by exists m, l1, l2.
  - right. split; [done|].
    destruct (put_miss_spec c k v HI Hk)
      as (c1 & Hp & HW & _ & _ & _ & Hfull & Hroom).
    rewrite Hp in Hput. injection Hput as <-.
    exists c1. split; [done|]. split; [done|].
    destruct (decide (size c = mCapacity c)) as [Hsz|Hsz].
    + right. split; [done|].
      destruct (Hfull Hsz) as (e & l' & _ & He). by exists e, l'.
    + left. split; [done|]. by apply Hroom.
Qed.

Lemma get_cases (c c' : LFUCache) (k : K) (v : V) :
  Inv c → get c k = Ok (c', v) →
  (∃ m l1 l2, mKeyMetaByKey c !! k = Some m ∧ freq m < INT_MAX ∧
     v = val m ∧ is_touch c k m (val m) l1 l2 c') ∨
  (mKeyMetaByKey c !! k = None ∧ v = defaultVal ∧
   put c k defaultVal = Ok c').
Proof.
  intros HI Hget. destruct (mKeyMetaByKey c !! k) as [m|] eqn:Hk.
  - left. assert (Hlt : freq m < INT_MAX).
    { unfold get in Hget. rewrite (proj2 (contains_true c k)) in Hget
        by by eexists.
      destruct (touch c k) as [c1| |] eqn:Ht; [|done..].
      by eapply touch_Ok_lt. }
    destruct (get_hit_spec c k m HI Hk Hlt)
      as (l1 & l2 & c'' & Hg & _ & Ht).
    rewrite Hg in Hget. injection Hget as <- <-. by exists m, l1, l2.
  - right. unfold get in Hget.
    rewrite (proj2 (contains_false c k) Hk) in Hget.
    destruct (put c k defaultVal) as [c1| |] eqn:Hp; [|done..].
    simpl in Hget. by injection Hget as <- <-.
Qed.

Lemma is_touch_lookup (c c' : LFUCache) (k k' : K) (m : KeyMeta) (v : V)
    (l1 l2 : list K) :
  is_touch c k m v l1 l2 c' →
  mKeyMetaByKey c' !! k' =
    if decide (k = k')
    then Some (mkKeyMeta (Some (freq m + 1)) (freq m + 1) v)
    else mKeyMetaByKey c !! k'.
Proof. intros (_ & _ & -> & _). apply lookup_insert. Qed.

Lemma is_touch_keys (c c' : LFUCache) (k : K) (m : KeyMeta) (v : V)
    (l1 l2 : list K) :
  mKeyMetaByKey c !! k = Some m → is_touch c k m v l1 l2 c' →
  keys c' = keys c ∧ size c' = size c.
Proof.
  intros Hk (_ & _ & Hm & _). unfold keys, size. rewrite Hm. split.
  - rewrite dom_insert_L. apply elem_of_dom_2 in Hk. set_solver.
  - by rewrite map_size_insert_Some.
Qed.

Lemma put_fresh_keys (c1 : LFUCache) (k : K) (v : V) :
  mKeyMetaByKey c1 !! k = None →
  keys (put_fresh c1 k v) = {[k]} ∪ keys c1 ∧
  size (put_fresh c1 k v) = size c1 + 1.
Proof.
  intros Hk. unfold keys, size, put_fresh. simpl. split.
  - by rewrite dom_insert_L.
  - rewrite map_size_insert_None by done. lia.
Qed.

(** ** Frequencies along a step *)



(** ** No member function but the constructor throws *)

Lemma bind_no_throw {A B : Type} (m : res A) (f : A → res B) (w : string) :
  (∀ w', m ≠ Throw w') → (∀ a, f a ≠ Throw w) → bind m f ≠ Throw w.
Proof.
  intros Hm Hf. destruct m as [a|w'|]; simpl; [apply Hf| |done].
  by destruct (Hm w').
Qed.

Lemma int_succ_no_throw (x : Z) (w : string) : int_succ x ≠ Throw w.
Proof. unfold int_succ. by case_match. Qed.

Lemma touch_no_throw (c : LFUCache) (k : K) (w : string) :
  touch c k ≠ Throw w.
Proof.
  unfold touch. apply bind_no_throw; [apply int_succ_no_throw|].
  intros newFreq. repeat (case_match; try done).
  apply bind_no_throw; [apply int_succ_no_throw|done].
Qed.

Lemma evict_no_throw (c : LFUCache) (w : string) : evict c ≠ Throw w.
Proof. unfold evict. by case_match. Qed.

Lemma put_no_throw (c : LFUCache) (k : K) (v : V) (w : string) :
  put c k v ≠ Throw w.
Proof.
  unfold put. destruct (contains c k).
  - apply bind_no_throw; [apply touch_no_throw|done].
  - apply bind_no_throw; [|done]. intros w'.
    destruct (bool_decide (size c = mCapacity c)); [|done].
    apply evict_no_throw.
Qed.

Lemma get_no_throw (c : LFUCache) (k : K) (w : string) :
  get c k ≠ Throw w.
Proof.
  unfold get. destruct (contains c k).
  - apply bind_no_throw; [apply touch_no_throw|done].
  - apply bind_no_throw; [apply put_no_throw|done].
Qed.

Lemma step_no_throw (c : LFUCache) (o : op) (w : string) :
  step c o ≠ Throw w.
Proof.
  destruct o as [k| | |k|k v]; simpl; try done.
  - apply bind_no_throw; [apply get_no_throw|done].
  - apply bind_no_throw; [apply put_no_throw|done].
Qed.

(** On [size_t] values the constructor throws exactly at 0, the one value
    that is [<= 0]. *)
Lemma ctor_throws_iff (capacity : Z) :
  (∃ w, LFUCache_ctor capacity = Throw w) ↔ capacity ≤ 0.
Proof.
  unfold LFUCache_ctor. destruct (decide (capacity ≤ 0)).
  - rewrite bool_decide_eq_true_2 by done. split; [done|]. by eexists.
  - rewrite bool_decide_eq_false_2 by done. split; [by intros [? ?]|done].
Qed.

(** A negative argument is converted to a large [size_t], which the
    test [capacity <= 0] lets through. *)
Lemma construct_negative (n : Z) :
  - SIZE_MAX ≤ n < 0 →
  construct n = Ok (mkLFUCache (n + SIZE_MAX + 1) 0 ∅ ∅).
Proof.
  intros Hn. unfold construct, to_size_t.
  replace (n `mod` (SIZE_MAX + 1)) with (n + SIZE_MAX + 1).
  - apply ctor_Ok. split; [lia|done].
  - apply (Z.mod_unique _ _ (-1)); unfold SIZE_MAX in *; lia.
Qed.

(** ** The properties of the specification *)

(** C1.  When a [put] of a key that is not in the cache finds the cache
    full, the call succeeds and removes exactly one key [e]: the back of
    the list of [mMinFreq].  The frequency [f] of [e] is the least
    frequency of the keys present before the call, every other key of
    frequency [f] was touched more recently than [e], and the keys after
    the call are the former keys without [e], plus the new key; the entries
    of the other keys are as before. *)
Theorem C1_evict_least_frequent_least_recent
    (h : list op) (c : LFUCache) (k : K) (v : V) :
  reachable_by h c → contains c k = false → size c = mCapacity c →
  ∃ e f c',
    put c k v = Ok c' ∧
    last (bucket c (mMinFreq c)) = Some e ∧
    e ∈ keys c ∧ e ≠ k ∧
    freq_of c e = Some f ∧
    (∀ k' f', freq_of c k' = Some f' → f ≤ f') ∧
    (∀ k', k' ≠ e → freq_of c k' = Some f → fresher h k' e) ∧
    keys c' = {[k]} ∪ (keys c ∖ {[e]}) ∧
    (∀ k', k' ≠ e → k' ≠ k →
      mKeyMetaByKey c' !! k' = mKeyMetaByKey c !! k').
Proof.
  intros Hr Hk Hfull. apply contains_false in Hk.
  destruct (reachable_by_Inv h c Hr) as [HI HH].
  destruct (put_miss_spec c k v HI Hk)
    as (c1 & Hp & HW & _ & Hk1 & _ & Hev & _).
  destruct (Hev Hfull) as (e & l' & _ & Hl & Hcap & Hminf & Hmetas & Hb).
  assert (He : e ∈ bucket c (mMinFreq c)).
  { rewrite Hl. set_solver. }
  destruct (inv_list c HI _ _ He) as (me & Hme & Hfe).
  destruct (inv_min c HI (inv_nonempty c e me Hme)) as [_ Hmin].
  assert (Hek : e ≠ k) by (intros ->; congruence).
  exists e, (mMinFreq c), (put_fresh c1 k v).
  split_and!; try done.
  - rewrite Hl. apply last_snoc.
  - unfold keys. by apply elem_of_dom_2 in Hme.
  - unfold freq_of. rewrite Hme. simpl. by rewrite Hfe.
  - intros k' f'. unfold freq_of.
    destruct (mKeyMetaByKey c !! k') as [m'|] eqn:Hm'; [|done].
    intros [= <-]. by eapply Hmin.
  - intros k' Hne. unfold freq_of.
    destruct (mKeyMetaByKey c !! k') as [m'|] eqn:Hm'; [|done].
    intros [= Hf']. destruct (inv_meta c HI _ _ Hm') as (_ & _ & Hin).
    rewrite Hf', Hl in Hin.
    pose proof (hinv_sorted h c HH (mMinFreq c)) as Hs. rewrite Hl in Hs.
    eapply StronglySorted_app_1_elem_of; [done| |left].
    set_solver.
  - destruct (put_fresh_keys c1 k v Hk1) as [-> _].
    unfold keys. by rewrite Hmetas, dom_delete_L.
  - intros k' Hne1 Hne2. unfold put_fresh. simpl.
    by rewrite lookup_insert_ne, Hmetas, lookup_delete_ne.
Qed.

(** C2.  For a capacity of at least 1 the constructor succeeds, and after
    every call of every sequence of [contains], [empty], [size], [get] and
    [put] calls (after each prefix [take n ops] of the sequence) the number
    of entries that [size()] reports is at most the capacity.  The calls
    are all defined as long as no more than [INT_MAX] of them are made (a
    frequency is an [int], and cannot exceed the number of calls). *)
Theorem C2_size_at_most_capacity (capacity : Z) (ops : list op) :
  1 ≤ capacity →
  ∃ c0,
    LFUCache_ctor capacity = Ok c0 ∧
    (∀ n c, run c0 (take n ops) = Ok c →
      step c OpSize = Ok (c, OutSize (size c)) ∧ size c ≤ capacity) ∧
    (Z.of_nat (List.length ops) ≤ INT_MAX → ∃ c, run c0 ops = Ok c).
Proof.
  intros Hcap. exists (mkLFUCache capacity 0 ∅ ∅).
  assert (Hctor : LFUCache_ctor capacity = Ok (mkLFUCache capacity 0 ∅ ∅)).
  { by apply ctor_Ok. }
  pose proof (reachable_ctor _ _ Hctor) as Hr0.
  split_and!; [done| |].
  - intros n c Hrun. split; [done|].
    pose proof (run_reachable_by _ _ _ _ Hr0 Hrun) as Hr.
    pose proof (run_capacity _ _ _ _ Hr0 Hrun) as Hc. simpl in Hc.
    apply reachable_by_Inv in Hr as [HI _].
    rewrite <- Hc. apply HI.
  - intros Hlen. eapply run_defined; [done|]. simpl. lia.
Qed.

(** The invariant on [mMinFreq] under the five operations.  In a state that
    [contains], [empty], [size], [get] and [put] produce from a constructed
    cache, and that has at least one entry, [mMinFreq] is the least frequency
    whose list is not empty.  A [touch] of a present key of frequency [f]
    (below [INT_MAX]) adds exactly 1 to [mMinFreq] when the list of [f] has
    become empty and [f] was [mMinFreq], and leaves [mMinFreq] as it was
    otherwise; a [put] of a new key sets [mMinFreq] to 1. *)
Lemma min_frequency_five_operations (c : LFUCache) :
  reachable c →
  (keys c ≠ ∅ →
    bucket c (mMinFreq c) ≠ [] ∧ ∀ f, bucket c f ≠ [] → mMinFreq c ≤ f) ∧
  (∀ k f, freq_of c k = Some f → f < INT_MAX →
    ∃ c', touch c k = Ok c' ∧
      mMinFreq c' =
        if bool_decide (bucket c' f = [] ∧ f = mMinFreq c)
        then mMinFreq c + 1 else mMinFreq c) ∧
  (∀ k v, contains c k = false →
    ∃ c', put c k v = Ok c' ∧ mMinFreq c' = 1).
Proof.
  intros HI%reachable_Inv. split_and!.
  - intros Hne. unfold keys in Hne. rewrite dom_empty_iff_L in Hne.
    destruct (inv_min c HI Hne) as [Hb Hmin]. split; [done|].
    intros f Hf. destruct (bucket c f) as [|x l] eqn:Hl; [done|].
    destruct (inv_list c HI f x) as (m & Hm & <-); [rewrite Hl; left|].
    by eapply Hmin.
  - intros k f. unfold freq_of.
    destruct (mKeyMetaByKey c !! k) as [m|] eqn:Hk; [|done].
    intros [= <-] Hlt.
    destruct (touch_spec c k m HI Hk Hlt)
      as (l1 & l2 & c' & Ht & Hl & _ & _ & Hb & Hminf).
    exists c'. split; [done|]. rewrite Hminf, Hb.
    rewrite decide_False by lia. by rewrite decide_True.
  - intros k v Hk%contains_false.
    destruct (put_miss_spec c k v HI Hk) as (c1 & Hp & _).
    by exists (put_fresh c1 k v).
Qed.


(** C5.  In a reachable state, [get(k)] of a key that is not in the cache
    returns the default value and leaves the state that [put(k, V())]
    yields: [k] is in the cache, with the default value, and when the cache
    was full exactly one former key is gone. *)
Theorem C5_get_miss_fills_default (c : LFUCache) (k : K) :
  reachable c → contains c k = false →
  ∃ c',
    get c k = Ok (c', defaultVal) ∧
    put c k defaultVal = Ok c' ∧
    contains c' k = true ∧
    val_of c' k = Some defaultVal ∧
    (size c ≠ mCapacity c → keys c' = {[k]} ∪ keys c) ∧
    (size c = mCapacity c →
      ∃ e, e ∈ keys c ∧ keys c' = {[k]} ∪ (keys c ∖ {[e]})).
Proof.
  intros HI%reachable_Inv Hc. pose proof Hc as Hk%contains_false.
  destruct (put_miss_spec c k defaultVal HI Hk)
    as (c1 & Hp & HW & Hsz & Hk1 & _ & Hfull & Hroom).
  exists (put_fresh c1 k defaultVal).
  destruct (put_fresh_keys c1 k defaultVal Hk1) as [Hkeys _].
  split_and!.
  - unfold get. by rewrite Hc, Hp.
  - done.
  - apply contains_true. unfold put_fresh. simpl.
    rewrite lookup_insert_eq. by eexists.
  - unfold val_of, put_fresh. simpl. by rewrite lookup_insert_eq.
  - intros Hne. by rewrite Hkeys, (Hroom Hne).
  - intros Heq. destruct (Hfull Heq) as (e & l' & _ & Hl & _ & _ & Hm & _).
    exists e. split.
    + assert (He : e ∈ bucket c (mMinFreq c)) by (rewrite Hl; set_solver).
      destruct (inv_list c HI _ _ He) as (me & Hme & _).
      unfold keys. by apply elem_of_dom_2 in Hme.
    + rewrite Hkeys. unfold keys. by rewrite Hm, dom_delete_L.
Qed.

(** C6, where the code departs from the specification.  The constructor
    takes a [size_t]: the call [LFUCache<int, int> cache(-1)], which the
    notes in [main] expect to throw, converts [-1] to [SIZE_MAX], and the
    test [capacity <= 0] lets it through: a cache of capacity [SIZE_MAX] is
    built.  (See [ctor_throws_iff] for the values of [size_t] and
    [step_no_throw] for the other member functions.) *)
Theorem C6_negative_capacity_accepted :
  construct (-1) = Ok (mkLFUCache SIZE_MAX 0 ∅ ∅) ∧
  ∀ w, construct (-1) ≠ Throw w.
Proof.
  assert (Hc : construct (-1) = Ok (mkLFUCache SIZE_MAX 0 ∅ ∅)).
  { by rewrite construct_negative by (unfold SIZE_MAX; lia). }
  split; [done|]. intros w. by rewrite Hc.
Qed.



(** C9.  In every state, [contains], [size] and [empty] return the state
    they were given, whatever the number of such calls; [contains(key)] is
    true exactly when [key] is in the key index, [size()] is the number of its
    entries, and [empty()] is true exactly when there is none. *)
Theorem C9_queries_leave_state (c : LFUCache) (key : K) :
  step c (OpContains key) = Ok (c, OutBool (bool_decide (key ∈ keys c))) ∧
  step c OpSize = Ok (c, OutSize (Z.of_nat (base.size (keys c)))) ∧
  step c OpEmpty = Ok (c, OutBool (bool_decide (base.size (keys c) = 0%nat))) ∧
  ∀ ops, Forall (λ o, ∀ k, touches o k = false) ops → run c ops = Ok c.
Proof.
  split_and!.
  - simpl. unfold contains, keys. do 3 f_equal.
    apply bool_decide_ext. by rewrite elem_of_dom.
  - simpl. unfold size, keys. by rewrite size_dom.
  - simpl. unfold empty, keys. do 3 f_equal. apply bool_decide_ext.
    by rewrite size_dom, map_size_empty_iff.
  - intros ops. induction 1 as [|o ops Ho _ IH]; [done|].
    destruct o as [k| | |k|k v]; simpl in *; try done.
    + specialize (Ho k). by rewrite bool_decide_eq_true_2 in Ho.
    + specialize (Ho k). by rewrite bool_decide_eq_true_2 in Ho.
Qed.


End LFU_proofs.

(** * The scenarios of [main] *)

Lemma cache_after_reachable (capacity : Z) (ops : list int_op)
    (c : int_cache) :
  (let! c0 := LFUCache_ctor capacity in run c0 ops) = Ok c →
  reachable_by (rev ops) c.
Proof.
  destruct (LFUCache_ctor capacity) as [c0| |] eqn:Hc; simpl; [|done..].
  intros Hrun. rewrite <- (app_nil_r (rev ops)).
  eapply run_reachable_by; [|done]. by eapply reachable_ctor.
Defined.

Lemma many_reachable_by : reachable_by (rev many_ops) many.
Proof. apply (cache_after_reachable 3). vm_compute. reflexivity. Defined.

Lemma many_reachable : reachable many.
Proof. exists (rev many_ops). apply many_reachable_by. Defined.

(** First block of [main], capacity 1: [put(2, 2)] evicts key 1. *)
Example one_capacity :
  let c := cache_after 1 [OpPut 1 1; OpGet 1; OpPut 2 2] in
  size c = 1 ∧ contains c 1 = false ∧ contains c 2 = true ∧
  ∃ c', get c 2 = Ok (c', 2).
Proof. vm_compute. split_and!; try done. by eexists. Qed.

(** Fourth block of [main], capacity 3: [get(4)] on a full cache returns the
    default value, inserts key 4 and evicts key 1. *)
Example many_get_absent :
  let c :=
    cache_after 3 [OpPut 1 1; OpGet 1; OpPut 2 2; OpGet 2; OpPut 3 3; OpGet 3]
  in
  ∃ c', get c 4 = Ok (c', 0) ∧ size c' = 3 ∧
    contains c' 1 = false ∧ contains c' 2 = true ∧
    contains c' 3 = true ∧ contains c' 4 = true.
Proof. eexists. split; [vm_compute; reflexivity|]. vm_compute. done. Qed.

(** Keys 1, 2, 3 inserted, then [get(3)]: the [put] of key 4 evicts, among the
    keys 1 and 2 of frequency 1, the less recently touched key 1. *)
Example tie_break_by_recency :
  let c := cache_after 3 [OpPut 1 1; OpPut 2 2; OpPut 3 3; OpGet 3] in
  ∃ c', put c 4 4 = Ok c' ∧
    contains c' 1 = false ∧ contains c' 2 = true ∧
    contains c' 3 = true ∧ contains c' 4 = true.
Proof. eexists. split; [vm_compute; reflexivity|]. vm_compute. done. Qed.

(** [main]: after [put(4, 4)] key 1 is gone, keys 2, 3 and 4 are there. *)
Example many_put_4 :
  ∃ c', put many 4 4 = Ok c' ∧
    contains c' 1 = false ∧ contains c' 2 = true ∧
    contains c' 3 = true ∧ contains c' 4 = true ∧ size c' = 3.
Proof. eexists. split; [vm_compute; reflexivity|]. vm_compute. done. Qed.

Lemma C1_witness :
  reachable_by (rev many_ops) many ∧
  contains many 4 = false ∧ size many = mCapacity many ∧
  ∃ e c', put many 4 4 = Ok c' ∧
    last (bucket many (mMinFreq many)) = Some e ∧
    keys c' = {[4]} ∪ (keys many ∖ {[e]}).
Proof.
  split; [apply many_reachable_by|].
  split; [vm_compute; reflexivity|].
  split; [vm_compute; reflexivity|].
  destruct (C1_evict_least_frequent_least_recent (rev many_ops) many 4 4)
    as (e & f & c' & Hp & Hl & _ & _ & _ & _ & _ & Hk & _).
  - apply many_reachable_by.
  - vm_compute. reflexivity.
  - vm_compute. reflexivity.
  - exists e, c'. split; [exact Hp|]. split; [exact Hl|exact Hk].
Defined.

Lemma C2_witness :
  1 ≤ 3 ∧
  ∃ c0 : int_cache,
    LFUCache_ctor 3 = Ok c0 ∧
    (∀ n c, run c0 (take n many_ops) = Ok c → size c ≤ 3) ∧
    ∃ c, run c0 many_ops = Ok c.
Proof.
  split; [lia|].
  destruct (C2_size_at_most_capacity 3 many_ops) as (c0 & Hc & Hsz & Hdef).
  - lia.
  - exists c0. split; [exact Hc|]. split.
    + intros n c Hrun. exact (proj2 (Hsz n c Hrun)).
    + apply Hdef. vm_compute. discriminate.
Defined.

Lemma min_frequency_five_operations_many :
  reachable many ∧
  bucket many (mMinFreq many) ≠ [] ∧
  (∃ c', touch many 1 = Ok c' ∧
     mMinFreq c' =
       if bool_decide (bucket c' 2 = [] ∧ 2 = mMinFreq many)
       then mMinFreq many + 1 else mMinFreq many) ∧
  (∃ c', put many 4 4 = Ok c' ∧ mMinFreq c' = 1).
Proof.
  split; [apply many_reachable|].
  destruct (min_frequency_five_operations many many_reachable)
    as (Hmin & Htouch & Hput).
  split; [|split].
  - apply Hmin. vm_compute. discriminate.
  - apply (Htouch 1 2); vm_compute; reflexivity.
  - apply Hput. vm_compute. reflexivity.
Defined.


Lemma C5_witness :
  reachable many ∧ contains many 4 = false ∧
  ∃ c', get many 4 = Ok (c', 0) ∧ contains c' 4 = true.
Proof.
  split; [apply many_reachable|]. split; [vm_compute; reflexivity|].
  destruct (C5_get_miss_fills_default many 4 many_reachable)
    as (c' & Hg & _ & Hc & _).
  - vm_compute. reflexivity.
  - exists c'. split; [exact Hg|exact Hc].
Defined.




(** ** A direct call of [evict] *)

Lemma reachable_reachable_public {K : Type} `{Countable K} {V : Type}
    `{DefaultContructible V} (c : @LFUCache K _ _ V) :
  reachable c → reachable_public c.
Proof.
  intros [h Hr]. induction Hr as [capacity c Hc|h c o c' r _ IH Hstep].
  - by eapply public_ctor.
  - by eapply (public_call c (MOp o)).
Qed.

Lemma after_direct_evict_reachable : reachable_public after_direct_evict.
Proof.
  apply (public_call two_keys MEvict after_direct_evict OutVoid).
  - apply reachable_reachable_public. exists (rev [OpPut 1 1; OpGet 1; OpPut 2 2]).
    apply (cache_after_reachable 2). vm_compute. reflexivity.
  - vm_compute. reflexivity.
Qed.

(** C3, where the code departs from the specification.  The class declares
    [evict] under its one [public:] label, and [evict] does not maintain
    [mMinFreq] (whose comment in the class reads: minimum frequency of all
    keys).  After the calls [put(1, 1); get(1); put(2, 2); evict()] on a
    cache of capacity 2, the key index is not empty: key 1 is in the cache
    with frequency 2, and the list of frequency 2 is the only one that is
    not empty; yet [mMinFreq] is 1 and its list is empty, so [mMinFreq] is
    not the least frequency that has a non-empty list.  (Over [contains],
    [empty], [size], [get] and [put] alone the invariant holds:
    [min_frequency_five_operations].) *)
Theorem C3_direct_evict_leaves_min_stale :
  reachable_public after_direct_evict ∧
  keys after_direct_evict = {[1]} ∧
  freq_of after_direct_evict 1 = Some 2 ∧
  bucket after_direct_evict 2 = [1] ∧
  mMinFreq after_direct_evict = 1 ∧
  bucket after_direct_evict (mMinFreq after_direct_evict) = [] ∧
  ¬ (∀ c : int_cache, reachable_public c → keys c ≠ ∅ →
       bucket c (mMinFreq c) ≠ [] ∧
       ∀ f, bucket c f ≠ [] → mMinFreq c ≤ f).
Proof.
  split; [apply after_direct_evict_reachable|].
  do 5 (split; [vm_compute; reflexivity|]).
  intros Hall.
  destruct (Hall after_direct_evict after_direct_evict_reachable) as [Hne _].
  - vm_compute. discriminate.
  - apply Hne. vm_compute. reflexivity.
Qed.

(** * Further properties of the class *)

Section LFU_more.
Context {K : Type} `{Countable K}.
Context {V : Type} `{DefaultContructible V}.

Local Abbreviation LFUCache := (@LFUCache K _ _ V) (only parsing).
Local Abbreviation KeyMeta := (@KeyMeta V) (only parsing).
Local Abbreviation op := (@op K V) (only parsing).
Local Abbreviation out := (@out V) (only parsing).

(** X1.  In a reachable state the key index and the lists agree: a key is in
    the list of [f] exactly when its entry has frequency [f], no list holds
    a key twice, and the iterator of every entry designates a node of the
    list of its frequency, which is between 1 and [INT_MAX]. *)
Theorem X1_index_and_lists_agree (c : LFUCache) :
  reachable c →
  (∀ k f, k ∈ bucket c f ↔ freq_of c k = Some f) ∧
  (∀ f, NoDup (bucket c f)) ∧
  (∀ k m, mKeyMetaByKey c !! k = Some m →
    iter m = Some (freq m) ∧ 1 ≤ freq m ≤ INT_MAX ∧ k ∈ bucket c (freq m)).
Proof.
  intros HI%reachable_Inv. split_and!; [|apply HI|apply HI].
  intros k f. unfold freq_of. split.
  - intros Hin. destruct (inv_list c HI f k Hin) as (m & -> & <-). done.
  - destruct (mKeyMetaByKey c !! k) as [m|] eqn:Hk; [|done].
    intros [= <-]. by destruct (inv_meta c HI k m Hk) as (_ & _ & ?).
Qed.

(** X2.  In the state reached by the calls [h], every list is in the order
    of the last touch, most recent first: a key was touched more recently
    than each key behind it in its list. *)
Theorem X2_lists_ordered_by_recency (h : list op) (c : LFUCache) (f : Z)
    (l1 l2 : list K) (a b : K) :
  reachable_by h c → bucket c f = l1 ++ a :: l2 → b ∈ l2 → fresher h a b.
Proof.
  intros [_ HH]%reachable_by_Inv Hl Hb.
  pose proof (hinv_sorted h c HH f) as Hs. rewrite Hl in Hs.
  apply StronglySorted_app_1_r, StronglySorted_cons in Hs as [Hall _].
  rewrite Forall_forall in Hall. by apply Hall.
Qed.

(** X3.  In a reachable state a call of [contains], [empty], [size], [get]
    or [put] never throws, and has undefined behaviour in one case only: it
    is a [get] or [put] on a key whose frequency is [INT_MAX], where the
    increment of [touch] overflows.  No call ever reads the back of an empty
    list or erases through an iterator of another list. *)
Theorem X3_undefined_only_by_overflow (c : LFUCache) (o : op) :
  reachable c →
  ((∃ k, touches o k = true ∧ freq_of c k = Some INT_MAX) → step c o = Undef) ∧
  ((∀ k, touches o k = true → freq_of c k ≠ Some INT_MAX) →
    ∃ c' r, step c o = Ok (c', r)).
Proof.
  intros HI%reachable_Inv. split.
  - intros (k & Ht & Hf). unfold freq_of in Hf.
    destruct (mKeyMetaByKey c !! k) as [m|] eqn:Hk; [|done].
    simpl in Hf. injection Hf as Hf.
    pose proof (touch_overflow c k m Hk Hf) as Hu.
    destruct o as [k0| | |k0|k0 v]; simpl in Ht; try done;
      apply bool_decide_eq_true in Ht as ->; simpl.
    + unfold get. rewrite (proj2 (contains_true c k)) by by eexists.
      by rewrite Hu.
    + unfold put. rewrite (proj2 (contains_true c k)) by by eexists.
      by rewrite Hu.
  - intros Hno. apply step_defined; [done|].
    intros k m Ht Hk. destruct (inv_meta c HI k m Hk) as (_ & Hr & _).
    specialize (Hno k Ht). unfold freq_of in Hno. rewrite Hk in Hno.
    simpl in Hno. assert (freq m ≠ INT_MAX) by congruence. lia.
Qed.

(** X4.  [evict] called on its own in a reachable state: it has undefined
    behaviour on an empty cache (it reads the back of an empty list);
    otherwise it removes exactly the key at the back of the list of
    [mMinFreq], which is in the cache, and leaves the capacity, [mMinFreq]
    and the entries of the other keys as they were. *)
Theorem X4_evict_on_its_own (c : LFUCache) :
  reachable c →
  (keys c = ∅ → evict c = Undef) ∧
  (keys c ≠ ∅ →
    ∃ e c', evict c = Ok c' ∧
      last (bucket c (mMinFreq c)) = Some e ∧
      e ∈ keys c ∧
      keys c' = keys c ∖ {[e]} ∧
      size c' = size c - 1 ∧
      mCapacity c' = mCapacity c ∧
      mMinFreq c' = mMinFreq c ∧
      (∀ k, k ≠ e → mKeyMetaByKey c' !! k = mKeyMetaByKey c !! k)).
Proof.
  intros HI%reachable_Inv. unfold keys. split.
  - rewrite dom_empty_iff_L. intros Hempty. unfold evict.
    destruct (subscript (mKeysByFreq c) (mMinFreq c)) as [|x l] eqn:Hl; [done|].
    destruct (inv_list c HI (mMinFreq c) x) as (m & Hm & _).
    + unfold bucket. rewrite Hl. left.
    + rewrite Hempty in Hm. by rewrite lookup_empty in Hm.
  - rewrite dom_empty_iff_L. intros Hne.
    destruct (evict_spec c HI Hne) as (e & l' & c' & He & Hc').
    destruct (is_evict_Wf c c' e l' HI Hc') as [_ Hsz].
    destruct Hc' as (Hl & Hcap & Hminf & Hmetas & Hb).
    assert (Hin : e ∈ bucket c (mMinFreq c)) by (rewrite Hl; set_solver).
    destruct (inv_list c HI _ _ Hin) as (me & Hme & _).
    exists e, c'. split_and!; try done.
    + rewrite Hl. apply last_snoc.
    + by apply elem_of_dom_2 in Hme.
    + by rewrite Hmetas, dom_delete_L.
    + intros k Hk. by rewrite Hmetas, lookup_delete_ne.
Qed.

(** X5.  [touch] called on its own in a reachable state: on a key that is not
    in the cache it has undefined behaviour ([operator[]] creates an entry
    with a singular iterator, which [erase] then receives); when it returns,
    it has done what [get] does on that key, and the state is a reachable
    one. *)
Theorem X5_touch_on_its_own (c : LFUCache) (k : K) :
  reachable c →
  (contains c k = false → touch c k = Undef) ∧
  (∀ c', touch c k = Ok c' →
    ∃ v, val_of c k = Some v ∧ get c k = Ok (c', v) ∧ reachable c').
Proof.
  intros [h Hr]. pose proof (reachable_by_Inv h c Hr) as [HI _]. split.
  - intros Hk%contains_false. unfold touch, meta_subscript. by rewrite Hk.
  - intros c' Ht. destruct (mKeyMetaByKey c !! k) as [m|] eqn:Hk.
    + pose proof (touch_Ok_lt c c' k m Hk Ht) as Hlt.
      destruct (get_hit_spec c k m HI Hk Hlt)
        as (l1 & l2 & c'' & Hg & Ht' & _).
      rewrite Ht in Ht'. injection Ht' as <-.
      exists (val m). unfold val_of. rewrite Hk. split; [done|].
      split; [done|]. exists (OpGet k :: h).
      eapply reachable_step; [done|]. simpl. by rewrite Hg.
    + unfold touch, meta_subscript in Ht. by rewrite Hk in Ht.
Qed.

(** What a successful call does, in three cases: a query, a hit, a miss. *)
Lemma step_effect (c c' : LFUCache) (o : op) (r : out) :
  Inv c → step c o = Ok (c', r) →
  (c' = c ∧ ∀ k, touches o k = false) ∨
  (∃ k m v l1 l2,
    (∀ k', touches o k' = bool_decide (k = k')) ∧
    mKeyMetaByKey c !! k = Some m ∧ freq m < INT_MAX ∧
    is_touch c k m v l1 l2 c' ∧
    (o = OpGet k ∧ v = val m ∧ r = OutVal v ∨ o = OpPut k v)) ∨
  (∃ k v,
    (∀ k', touches o k' = bool_decide (k = k')) ∧
    mKeyMetaByKey c !! k = None ∧
    (o = OpGet k ∧ v = defaultVal ∧ r = OutVal v ∨ o = OpPut k v) ∧
    ((size c ≠ mCapacity c ∧ c' = put_fresh c k v) ∨
     (size c = mCapacity c ∧
      ∃ e l' c1, is_evict c e l' c1 ∧ c' = put_fresh c1 k v))).
Proof.
  intros HI Hstep.
  assert (Hput : ∀ k v c1, put c k v = Ok c1 →
    (∃ m l1 l2, mKeyMetaByKey c !! k = Some m ∧ freq m < INT_MAX ∧
       is_touch c k m v l1 l2 c1) ∨
    (mKeyMetaByKey c !! k = None ∧
     ((size c ≠ mCapacity c ∧ c1 = put_fresh c k v) ∨
      (size c = mCapacity c ∧
       ∃ e l' c2, is_evict c e l' c2 ∧ c1 = put_fresh c2 k v)))).
  { intros k v c1 Hp.
    destruct (put_cases c c1 k v HI Hp)
      as [?|(Hk & c2 & -> & _ & [[Hsz ->]|[Hsz (e & l' & He)]])];
      [by left|right..].
    - split; [done|]. by left.
    - split; [done|]. right. split; [done|]. by exists e, l', c2. }
  destruct o as [k| | |k|k v]; simpl in Hstep.
  - left. by injection Hstep as <- <-.
  - left. by injection Hstep as <- <-.
  - left. by injection Hstep as <- <-.
  - right. destruct (get c k) as [[c1 v]| |] eqn:Hg; [|done..].
    simpl in Hstep. injection Hstep as <- <-.
    destruct (get_cases c c1 k v HI Hg)
      as [(m & l1 & l2 & Hk & Hlt & -> & Ht)|(Hk & -> & Hp)].
    + left. exists k, m, (val m), l1, l2. split_and!; try done. by left.
    + right. exists k, defaultVal. split_and!; try done; [by left|].
      destruct (Hput _ _ _ Hp) as [(m & ? & ? & Hk' & _)|[_ ?]]; [|done].
      by rewrite Hk in Hk'.
  - right. destruct (put c k v) as [c1| |] eqn:Hp; [|done..].
    simpl in Hstep. injection Hstep as <- <-.
    destruct (Hput _ _ _ Hp) as [(m & l1 & l2 & Hk & Hlt & Ht)|[Hk Hc]].
    + left. exists k, m, v, l1, l2. split_and!; try done. by right.
    + right. exists k, v. split_and!; try done. by right.
Qed.

Lemma is_evict_victim (c c1 : LFUCache) (e : K) (l' : list K) :
  Inv c → is_evict c e l' c1 →
  e ∈ keys c ∧ keys c1 = keys c ∖ {[e]} ∧ size c1 = size c - 1 ∧
  freq_of c e = Some (mMinFreq c).
Proof.
  intros HI Hev. destruct (is_evict_Wf c c1 e l' HI Hev) as [_ Hsz].
  destruct Hev as (Hl & _ & _ & Hmetas & _).
  assert (Hin : e ∈ bucket c (mMinFreq c)) by (rewrite Hl; set_solver).
  destruct (inv_list c HI _ _ Hin) as (me & Hme & Hf).
  unfold keys, freq_of. split_and!; [|by rewrite Hmetas, dom_delete_L|done|].
  - by apply elem_of_dom_2 in Hme.
  - rewrite Hme. simpl. by rewrite Hf.
Qed.

(** X6.  Under the five operations the number of entries never goes down: a
    successful call leaves it as it was, except that a [get] or [put] of a
    key that is not in the cache adds one when the cache is not full.  A full
    cache stays full. *)
Theorem X6_size_never_shrinks (c c' : LFUCache) (o : op) (r : out) :
  reachable c → step c o = Ok (c', r) →
  ((∀ k, touches o k = true → contains c k = true) → size c' = size c) ∧
  (∀ k, touches o k = true → contains c k = false →
    size c' = if bool_decide (size c = mCapacity c) then size c
              else size c + 1) ∧
  (size c = mCapacity c → size c' = mCapacity c').
Proof.
  intros HI%reachable_Inv Hstep.
  pose proof (step_capacity o c c' r HI Hstep) as Hcap.
  assert (Hcases :
    (size c' = size c ∧ ∀ k, touches o k = true → contains c k = true) ∨
    (size c' = (if bool_decide (size c = mCapacity c) then size c
                else size c + 1) ∧
     ∃ k, touches o k = true ∧ contains c k = false)).
  { destruct (step_effect c c' o r HI Hstep)
      as [[-> Hq]|[(k & m & v & l1 & l2 & Ho & Hk & _ & Ht & _)
                  |(k & v & Ho & Hk & _ & Hc)]].
    - left. split; [done|]. intros k Hk. by rewrite Hq in Hk.
    - left. destruct (is_touch_keys _ _ _ _ _ _ _ Hk Ht) as [_ Hs].
      split; [done|]. intros k'. rewrite Ho.
      intros <-%bool_decide_eq_true. apply contains_true. by eexists.
    - right. split.
      + destruct Hc as [[Hsz ->]|[Hsz (e & l' & c1 & He & ->)]].
        * rewrite bool_decide_eq_false_2 by done.
          by destruct (put_fresh_keys c k v Hk) as [_ ->].
        * rewrite bool_decide_eq_true_2 by done.
          destruct (is_evict_victim c c1 e l' HI He) as (_ & _ & Hs1 & _).
          assert (Hk1 : mKeyMetaByKey c1 !! k = None).
          { destruct He as (_ & _ & _ & -> & _). rewrite lookup_delete.
            by destruct (decide (e = k)). }
          destruct (put_fresh_keys c1 k v Hk1) as [_ ->]. lia.
      + exists k. rewrite Ho. split; [by apply bool_decide_eq_true_2|].
        by apply contains_false. }
  split_and!.
  - intros Hall. destruct Hcases as [[? _]|[_ (k & Ht & Hk)]]; [done|].
    specialize (Hall k Ht). congruence.
  - intros k Ht Hk. destruct Hcases as [[_ Hhit]|[? _]]; [|done].
    specialize (Hhit k Ht). congruence.
  - intros Hfull. rewrite Hcap.
    destruct Hcases as [[-> _]|[-> _]]; [done|].
    by rewrite bool_decide_eq_true_2.
Qed.

(** X7.  No call changes the capacity: after any run of calls on a reachable
    cache, [mCapacity] is what the constructor stored. *)
Theorem X7_capacity_is_immutable (c c' : LFUCache) (ops : list op) :
  reachable c → run c ops = Ok c' → mCapacity c' = mCapacity c.
Proof. intros [h Hr] Hrun. by eapply run_capacity. Qed.

(** X8.  In a reachable state, [put(k, v)] of a key that is not in the cache
    enters it with value [v] and frequency 1, at the head of the list of
    frequency 1, and sets [mMinFreq] to 1.  When the cache is not full no
    key leaves: the keys are the former ones plus [k], the entries of the
    former keys are as before, and so are the lists, but for [k] in front of
    the list of 1. *)
Theorem X8_put_new_key (c : LFUCache) (k : K) (v : V) :
  reachable c → contains c k = false →
  ∃ c', put c k v = Ok c' ∧
    val_of c' k = Some v ∧ freq_of c' k = Some 1 ∧
    head (bucket c' 1) = Some k ∧ mMinFreq c' = 1 ∧
    (size c ≠ mCapacity c →
      keys c' = {[k]} ∪ keys c ∧
      (∀ k', k' ≠ k → mKeyMetaByKey c' !! k' = mKeyMetaByKey c !! k') ∧
      (∀ g, bucket c' g =
        if decide (g = 1) then k :: bucket c g else bucket c g)).
Proof.
  intros HI%reachable_Inv Hk%contains_false.
  destruct (put_miss_spec c k v HI Hk) as (c1 & Hp & _ & _ & _ & _ & _ & Hroom).
  exists (put_fresh c1 k v). unfold val_of, freq_of.
  split_and!; try done.
  - unfold put_fresh. simpl. by rewrite lookup_insert_eq.
  - unfold put_fresh. simpl. by rewrite lookup_insert_eq.
  - by rewrite bucket_put_fresh, decide_True.
  - intros Hsz. rewrite (Hroom Hsz). split_and!.
    + by destruct (put_fresh_keys c k v Hk) as [-> _].
    + intros k' Hne. unfold put_fresh. simpl. by rewrite lookup_insert_ne.
    + apply bucket_put_fresh.
Qed.

(** X9.  A successful call on a reachable cache loses at most one key, and
    loses one only when a key that is not in the cache is inserted into a
    full cache.  The only key a call can add is the key it touches. *)
Theorem X9_at_most_one_key_leaves (c c' : LFUCache) (o : op) (r : out) :
  reachable c → step c o = Ok (c', r) →
  (keys c ⊆ keys c' ∨
   size c = mCapacity c ∧
   ∃ e k, e ∈ keys c ∧ touches o k = true ∧ contains c k = false ∧
     keys c' = {[k]} ∪ (keys c ∖ {[e]})) ∧
  (∀ k, k ∈ keys c' → k ∈ keys c ∨ touches o k = true).
Proof.
  intros HI%reachable_Inv Hstep.
  destruct (step_effect c c' o r HI Hstep)
    as [[-> Hq]|[(k & m & v & l1 & l2 & Ho & Hk & _ & Ht & _)
                |(k & v & Ho & Hk & _ & Hc)]].
  - split; [by left|]. intros k ?. by left.
  - destruct (is_touch_keys _ _ _ _ _ _ _ Hk Ht) as [-> _].
    split; [by left|]. intros k' ?. by left.
  - assert (Htk : touches o k = true).
    { rewrite Ho. by apply bool_decide_eq_true_2. }
    destruct Hc as [[Hsz ->]|[Hsz (e & l' & c1 & He & ->)]].
    + destruct (put_fresh_keys c k v Hk) as [-> _]. split.
      * left. set_solver.
      * intros k' [->%elem_of_singleton|?]%elem_of_union; auto.
    + destruct (is_evict_victim c c1 e l' HI He) as (Hin & Hkeys & _).
      assert (Hk1 : mKeyMetaByKey c1 !! k = None).
      { destruct He as (_ & _ & _ & -> & _). rewrite lookup_delete.
        by destruct (decide (e = k)). }
      destruct (put_fresh_keys c1 k v Hk1) as [-> _]. rewrite Hkeys. split.
      * right. split; [done|]. exists e, k. split_and!; try done.
        by apply contains_false.
      * intros k' [->%elem_of_singleton|Hk']%elem_of_union; [auto|].
        left. set_solver.
Qed.

(** One call and the value of a key. *)
Lemma step_val_of (c c' : LFUCache) (o : op) (r : out) (k : K) (v : V) :
  Inv c → step c o = Ok (c', r) → val_of c k = Some v →
  (∀ v', o ≠ OpPut k v') →
  (val_of c' k = Some v ∨ val_of c' k = None) ∧
  (o = OpGet k → r = OutVal v).
Proof.
  intros HI Hstep Hv Hnp. unfold val_of in *.
  destruct (mKeyMetaByKey c !! k) as [mk|] eqn:Hmk; [|done].
  simpl in Hv. injection Hv as <-.
  destruct (step_effect c c' o r HI Hstep)
    as [[-> Hq]|[(k0 & m & v0 & l1 & l2 & Ho & Hk & _ & Ht & Hov)
                |(k0 & v0 & Ho & Hk & Hov & Hc)]].
  - rewrite Hmk. split; [by left|]. intros ->. specialize (Hq k).
    simpl in Hq. by rewrite bool_decide_eq_true_2 in Hq.
  - rewrite (is_touch_lookup _ _ _ k _ _ _ _ Ht).
    destruct (decide (k0 = k)) as [->|Hne].
    + rewrite Hmk in Hk. injection Hk as <-.
      destruct Hov as [(-> & -> & ->) | ->]; [|by destruct (Hnp v0)].
      split; [by left|done].
    + rewrite Hmk. split; [by left|].
      intros ->. destruct Hov as [(Ho' & _)|Ho']; congruence.
  - assert (Hne : k0 ≠ k) by (intros ->; congruence).
    split; [|intros ->; destruct Hov as [(Ho' & _)|Ho']; congruence].
    destruct Hc as [[_ ->]|[_ (e & l' & c1 & He & ->)]];
      unfold put_fresh; simpl; rewrite lookup_insert_ne by done.
    + rewrite Hmk. by left.
    + destruct He as (_ & _ & _ & -> & _). rewrite lookup_delete.
      destruct (decide (e = k)); [by right|rewrite Hmk; by left].
Qed.

(** X10.  A stored value stays: if [k] has value [v] in a reachable state,
    then after any run of calls without a [put] on [k], along which [k] is
    never evicted, [k] still has value [v]; and a [get(k)] made then returns
    [v]. *)
Theorem X10_value_kept_until_next_put (c c' : LFUCache) (ops : list op)
    (k : K) (v : V) :
  reachable c → val_of c k = Some v → run c ops = Ok c' →
  (∀ v', OpPut k v' ∉ ops) →
  (∀ n c'', run c (take n ops) = Ok c'' → k ∈ keys c'') →
  val_of c' k = Some v ∧
  ∀ c'' r, step c' (OpGet k) = Ok (c'', r) → r = OutVal v.
Proof.
  intros [h Hr] Hv Hrun Hnp Hres.
  assert (Hval : val_of c' k = Some v ∧ Inv c').
  { clear -Hr Hv Hrun Hnp Hres. revert h c Hr Hv Hrun Hnp Hres.
    induction ops as [|o ops IH]; intros h c Hr Hv Hrun Hnp Hres;
      simpl in Hrun.
    - injection Hrun as <-. split; [done|].
      by apply reachable_by_Inv in Hr as [? _].
    - destruct (step c o) as [[c1 r]| |] eqn:Hstep; [|done..].
      simpl in Hrun.
      pose proof (reachable_by_Inv h c Hr) as [HI _].
      destruct (step_val_of c c1 o r k v HI Hstep Hv) as [Hv1 _].
      { intros v' ->. apply (Hnp v'). left. }
      assert (Hk1 : k ∈ keys c1).
      { apply (Hres 1%nat). simpl. rewrite Hstep. simpl. by destruct ops. }
      destruct Hv1 as [Hv1|Hv1].
      + apply (IH (o :: h) c1); [by eapply reachable_step|done..| |].
        * intros v' Hin. apply (Hnp v'). by right.
        * intros n c'' Hrun'. apply (Hres (S n)). simpl. by rewrite Hstep.
      + unfold keys in Hk1. apply elem_of_dom in Hk1 as [m Hm].
        unfold val_of in Hv1. by rewrite Hm in Hv1. }
  destruct Hval as [Hv' HI']. split; [done|].
  intros c'' r Hstep.
  by apply (step_val_of c' c'' (OpGet k) r k v HI' Hstep Hv').
Qed.

(** X11.  In a reachable state, [put(k, v)] with the value [v] that [k]
    already has is [get(k)]: both calls leave the same state.  (The frequency
    of [k] is below [INT_MAX].) *)
Theorem X11_put_of_stored_value_is_get (c : LFUCache) (k : K) (v : V) (f : Z) :
  reachable c → val_of c k = Some v → freq_of c k = Some f → f < INT_MAX →
  ∃ c', get c k = Ok (c', v) ∧ put c k v = Ok c'.
Proof.
  intros HI%reachable_Inv Hv Hf Hlt. unfold val_of, freq_of in *.
  destruct (mKeyMetaByKey c !! k) as [m|] eqn:Hk; [|done].
  simpl in *. injection Hv as <-. injection Hf as <-.
  destruct (get_hit_spec c k m HI Hk Hlt) as (l1 & l2 & c' & Hg & Ht & Hc').
  exists c'. split; [done|].
  unfold put. rewrite (proj2 (contains_true c k)) by by eexists.
  rewrite Ht. simpl. unfold meta_subscript.
  pose proof (is_touch_lookup _ _ _ k _ _ _ _ Hc') as Hk'.
  rewrite decide_True in Hk' by done. rewrite Hk'. simpl.
  rewrite insert_id by done. by rewrite eta_LFUCache.
Qed.

(** X12.  What survives an eviction.  In the state reached by the calls [h],
    a key [k1] stays in the cache over a [put] whenever some other key of the
    cache has a lower frequency, or the same frequency and a less recent
    last touch. *)
Theorem X12_not_least_frequent_survives (h : list op) (c c' : LFUCache)
    (k k1 k2 : K) (v : V) (f1 f2 : Z) :
  reachable_by h c → put c k v = Ok c' →
  freq_of c k1 = Some f1 → freq_of c k2 = Some f2 →
  f2 < f1 ∨ (f2 = f1 ∧ fresher h k1 k2) →
  k1 ∈ keys c'.
Proof.
  intros Hr Hp Hf1 Hf2 Hlt.
  destruct (reachable_by_Inv h c Hr) as [HI HH].
  assert (Hin1 : k1 ∈ keys c).
  { unfold keys, freq_of in *. apply elem_of_dom.
    by destruct (mKeyMetaByKey c !! k1); [eexists|]. }
  destruct (put_cases c c' k v HI Hp)
    as [(m & l1 & l2 & Hk & _ & Ht)
       |(Hk & c1 & -> & _ & [[_ ->]|[_ (e & l' & He)]])].
  - by destruct (is_touch_keys _ _ _ _ _ _ _ Hk Ht) as [-> _].
  - destruct (put_fresh_keys c k v Hk) as [-> _]. set_solver.
  - destruct (is_evict_victim c c1 e l' HI He) as (_ & Hkeys & _ & Hfe).
    assert (Hk1 : mKeyMetaByKey c1 !! k = None).
    { destruct He as (_ & _ & _ & -> & _). rewrite lookup_delete.
      by destruct (decide (e = k)). }
    destruct (put_fresh_keys c1 k v Hk1) as [-> _]. rewrite Hkeys.
    assert (Hne : k1 ≠ e); [|set_solver].
    intros ->. rewrite Hfe in Hf1. injection Hf1 as <-.
    destruct He as (Hl & _).
    unfold freq_of in Hf2.
    destruct (mKeyMetaByKey c !! k2) as [m2|] eqn:Hm2; [|done].
    simpl in Hf2. injection Hf2 as <-.
    destruct (inv_min c HI (inv_nonempty c k2 m2 Hm2)) as [_ Hmin].
    specialize (Hmin k2 m2 Hm2).
    destruct Hlt as [?|[Heq Hfr]]; [lia|].
    destruct (inv_meta c HI k2 m2 Hm2) as (_ & _ & Hin2).
    rewrite Heq, Hl in Hin2.
    pose proof (hinv_sorted h c HH (mMinFreq c)) as Hs. rewrite Hl in Hs.
    destruct Hfr as (ta & tb & Hta & Htb & Hab).
    apply elem_of_app in Hin2 as [Hin2|Hin2];
      [|apply list_elem_of_singleton in Hin2 as ->; simplify_eq; lia].
    destruct (StronglySorted_app_1_elem_of _ _ _ k2 e Hs Hin2)
      as (ta' & tb' & Hta' & Htb' & Hab'); [left|].
    simplify_eq. lia.
Qed.

(** X13.  In a reachable state, when [get(k)] returns [v] the key [k] is in
    the cache afterwards with value [v], and when [put(k, v)] returns [k] is
    in the cache with value [v]. *)
Theorem X13_touched_key_is_stored (c c' : LFUCache) (k : K) (v : V) :
  reachable c → get c k = Ok (c', v) ∨ put c k v = Ok c' →
  contains c' k = true ∧ val_of c' k = Some v.
Proof.
  intros HI%reachable_Inv Hcall.
  assert (Hput : ∀ c1 v1, put c k v1 = Ok c1 → val_of c1 k = Some v1).
  { intros c1 v1 Hp. unfold val_of.
    destruct (put_cases c c1 k v1 HI Hp)
      as [(m & l1 & l2 & Hk & _ & Ht)|(Hk & c2 & -> & _)].
    - rewrite (is_touch_lookup _ _ _ k _ _ _ _ Ht).
      by rewrite decide_True.
    - unfold put_fresh. simpl. by rewrite lookup_insert_eq. }
  assert (Hv : val_of c' k = Some v).
  { destruct Hcall as [Hg|Hp]; [|by apply Hput].
    destruct (get_cases c c' k v HI Hg)
      as [(m & l1 & l2 & Hk & _ & -> & Ht)|(_ & -> & Hp)]; [|by apply Hput].
    unfold val_of. rewrite (is_touch_lookup _ _ _ k _ _ _ _ Ht).
    by rewrite decide_True. }
  split; [|done]. apply contains_true. unfold val_of in Hv.
  by destruct (mKeyMetaByKey c' !! k); [eexists|].
Qed.

(** X14.  In the state reached by the calls [h], the frequency of a key is at
    least 1 and at most the number of calls made: a frequency cannot
    overflow before [INT_MAX] calls have been made. *)
Theorem X14_frequency_bounds (h : list op) (c : LFUCache) (k : K) (f : Z) :
  reachable_by h c → freq_of c k = Some f →
  1 ≤ f ≤ Z.of_nat (List.length h) ∧ f ≤ INT_MAX.
Proof.
  intros [HI HH]%reachable_by_Inv Hf. unfold freq_of in Hf.
  destruct (mKeyMetaByKey c !! k) as [m|] eqn:Hk; [|done].
  simpl in Hf. injection Hf as <-.
  destruct (inv_meta c HI k m Hk) as (_ & Hr & _).
  pose proof (hinv_freq h c HH k m Hk). lia.
Qed.

(** X15.  The cache is empty exactly as long as no [get] and no [put] has
    been called: the five operations never remove the last key, and
    [mMinFreq] is 0 until then and at least 1 afterwards. *)
Theorem X15_empty_until_first_touch (h : list op) (c : LFUCache) :
  reachable_by h c →
  (empty c = true ↔ Forall (λ o, ∀ k, touches o k = false) h) ∧
  (empty c = true → mMinFreq c = 0) ∧
  (empty c = false → 1 ≤ mMinFreq c).
Proof.
  intros Hr. split_and!.
  - induction Hr as [capacity c Hc|h c o c' r Hr IH Hstep].
    + apply ctor_Ok in Hc as [_ ->]. unfold empty. simpl.
      rewrite bool_decide_eq_true_2 by done. split; [constructor|done].
    + pose proof (reachable_by_Inv h c Hr) as [HI _].
      rewrite Forall_cons, <- IH. unfold empty.
      rewrite !bool_decide_eq_true.
      destruct (step_effect c c' o r HI Hstep)
        as [[-> Hq]|[(k & m & v & l1 & l2 & Ho & Hk & _ & Ht & _)
                    |(k & v & Ho & Hk & _ & Hc)]].
      * naive_solver.
      * split.
        -- intros Hempty. pose proof (is_touch_lookup _ _ _ k _ _ _ _ Ht) as Hl.
           rewrite Hempty, lookup_empty in Hl. by rewrite decide_True in Hl.
        -- intros [Hq _]. specialize (Hq k).
           by rewrite Ho, bool_decide_eq_true_2 in Hq.
      * split.
        -- intros Hempty.
           assert (Hl : mKeyMetaByKey c' !! k = None)
             by (by rewrite Hempty, lookup_empty).
           destruct Hc as [[_ ->]|[_ (e & l' & c1 & _ & ->)]];
             unfold put_fresh in Hl; simpl in Hl;
             by rewrite lookup_insert_eq in Hl.
        -- intros [Hq _]. specialize (Hq k).
           by rewrite Ho, bool_decide_eq_true_2 in Hq.
  - unfold empty. rewrite bool_decide_eq_true.
    induction Hr as [capacity c Hc|h c o c' r Hr IH Hstep].
    + by apply ctor_Ok in Hc as [_ ->].
    + pose proof (reachable_by_Inv h c Hr) as [HI _]. intros Hempty.
      destruct (step_effect c c' o r HI Hstep)
        as [[-> Hq]|[(k & m & v & l1 & l2 & Ho & Hk & _ & Ht & _)
                    |(k & v & Ho & Hk & _ & Hc)]].
      * by apply IH.
      * pose proof (is_touch_lookup _ _ _ k _ _ _ _ Ht) as Hl.
        rewrite Hempty, lookup_empty in Hl. by rewrite decide_True in Hl.
      * assert (Hl : mKeyMetaByKey c' !! k = None)
          by (by rewrite Hempty, lookup_empty).
        destruct Hc as [[_ ->]|[_ (e & l' & c1 & _ & ->)]];
          unfold put_fresh in Hl; simpl in Hl;
          by rewrite lookup_insert_eq in Hl.
  - unfold empty. rewrite bool_decide_eq_false. intros Hne.
    apply reachable_by_Inv in Hr as [HI _].
    destruct (inv_min c HI Hne) as [Hb Hmin].
    destruct (bucket c (mMinFreq c)) as [|x l] eqn:Hl; [done|].
    destruct (inv_list c HI (mMinFreq c) x) as (m & Hm & Hf);
      [rewrite Hl; left|].
    destruct (inv_meta c HI x m Hm) as (_ & Hrange & _). lia.
Qed.

Lemma touched_cons (o : op) (h : list op) (k : K) :
  (∀ k', touches o k' = bool_decide (k = k')) →
  touched (o :: h) = {[k]} ∪ touched h.
Proof.
  intros Ho. specialize (Ho k). rewrite bool_decide_eq_true_2 in Ho by done.
  destruct o as [k0| | |k0|k0 v]; simpl in *; try done;
    by apply bool_decide_eq_true in Ho as ->.
Qed.

Lemma touched_cons_query (o : op) (h : list op) :
  (∀ k, touches o k = false) → touched (o :: h) = touched h.
Proof.
  intros Ho. destruct o as [k| | |k|k v]; simpl; try done;
    by specialize (Ho k); simpl in Ho; rewrite bool_decide_eq_true_2 in Ho.
Qed.

Lemma reachable_by_capacity (h : list op) (c : LFUCache) :
  reachable_by h c → 1 ≤ mCapacity c.
Proof. intros [HI _]%reachable_by_Inv. apply HI. Qed.

(** X16.  A working set that fits is never evicted: when the calls made so
    far touch no more distinct keys than the capacity, the keys of the cache
    are exactly the keys touched. *)
Theorem X16_no_eviction_when_keys_fit (h : list op) (c : LFUCache) :
  reachable_by h c →
  Z.of_nat (base.size (touched h)) ≤ mCapacity c →
  keys c = touched h.
Proof.
  induction 1 as [capacity c Hc|h c o c' r Hr IH Hstep]; intros Hfit.
  - apply ctor_Ok in Hc as [_ ->]. unfold keys. simpl. by rewrite dom_empty_L.
  - pose proof (reachable_by_Inv h c Hr) as [HI _].
    pose proof (step_capacity o c c' r HI Hstep) as Hcap.
    rewrite Hcap in Hfit.
    destruct (step_effect c c' o r HI Hstep)
      as [[-> Hq]|[(k & m & v & l1 & l2 & Ho & Hk & _ & Ht & _)
                  |(k & v & Ho & Hk & _ & Hc)]].
    + rewrite touched_cons_query in * by done. by apply IH.
    + rewrite (touched_cons o h k Ho) in *.
      destruct (is_touch_keys _ _ _ _ _ _ _ Hk Ht) as [-> _].
      assert (Hin : k ∈ keys c).
      { unfold keys. by apply elem_of_dom_2 in Hk. }
      assert (Hsub : touched h ⊆ {[k]} ∪ touched h) by set_solver.
      apply subseteq_size in Hsub.
      rewrite IH by lia. rewrite IH in Hin by lia. set_solver.
    + rewrite (touched_cons o h k Ho) in *.
      assert (Hsub : touched h ⊆ {[k]} ∪ touched h) by set_solver.
      apply subseteq_size in Hsub.
      specialize (IH ltac:(lia)).
      assert (Hnin : k ∉ touched h).
      { rewrite <- IH. unfold keys. by apply not_elem_of_dom. }
      rewrite size_union, size_singleton in Hfit by set_solver.
      assert (Hsz : size c ≠ mCapacity c).
      { unfold size. rewrite <- size_dom. fold (keys c). rewrite IH. lia. }
      destruct Hc as [[_ ->]|[? _]]; [|done].
      destruct (put_fresh_keys c k v Hk) as [-> _]. by rewrite IH.
Qed.

Lemma touch_lists_grow (c c' : LFUCache) (k : K) :
  touch c k = Ok c' → dom (mKeysByFreq c) ⊆ dom (mKeysByFreq c').
Proof.
  unfold touch. destruct (int_succ _) as [newFreq| |]; simpl; [|done..].
  destruct (iter _) as [owner|]; [|done].
  destruct (bool_decide _); [|done].
  destruct (list_erase _ _) as [rest|]; [|done].
  destruct (bool_decide _).
  - destruct (int_succ _) as [minFreq| |]; simpl; [|done..].
    intros [= <-]. simpl. rewrite !dom_insert_L. set_solver.
  - intros [= <-]. simpl. rewrite !dom_insert_L. set_solver.
Qed.

Lemma evict_lists_grow (c c' : LFUCache) :
  evict c = Ok c' → dom (mKeysByFreq c) ⊆ dom (mKeysByFreq c').
Proof.
  unfold evict. destruct (last _) as [e|]; [|done].
  intros [= <-]. simpl. rewrite dom_insert_L. set_solver.
Qed.

Lemma put_lists_grow (c c' : LFUCache) (k : K) (v : V) :
  put c k v = Ok c' → dom (mKeysByFreq c) ⊆ dom (mKeysByFreq c').
Proof.
  unfold put. destruct (contains c k).
  - destruct (touch c k) as [c1| |] eqn:Ht; simpl; [|done..].
    intros [= <-]. simpl. by eapply touch_lists_grow.
  - destruct (bool_decide _).
    + destruct (evict c) as [c1| |] eqn:He; simpl; [|done..].
      intros [= <-]. simpl. rewrite dom_insert_L.
      apply evict_lists_grow in He. set_solver.
    + simpl. intros [= <-]. simpl. rewrite dom_insert_L. set_solver.
Qed.

(** X18.  The map of the lists never loses an entry: a list that has become
    empty stays in [mKeysByFreq], so the frequencies that have a list there
    only grow in number with the calls. *)
Theorem X18_lists_are_never_removed (c c' : LFUCache) (ops : list op) :
  run c ops = Ok c' → dom (mKeysByFreq c) ⊆ dom (mKeysByFreq c').
Proof.
  revert c. induction ops as [|o ops IH]; intros c Hrun; simpl in Hrun.
  - by injection Hrun as <-.
  - destruct (step c o) as [[c1 r]| |] eqn:Hstep; [|done..]. simpl in Hrun.
    transitivity (dom (mKeysByFreq c1)); [|by apply IH].
    clear Hrun IH. destruct o as [k| | |k|k v]; simpl in Hstep;
      try by injection Hstep as <- <-.
    + unfold get in Hstep. destruct (contains c k).
      * destruct (touch c k) as [c2| |] eqn:Ht; simpl in Hstep; [|done..].
        injection Hstep as <- <-. simpl. by eapply touch_lists_grow.
      * destruct (put c k defaultVal) as [c2| |] eqn:Hp; simpl in Hstep;
          [|done..].
        injection Hstep as <- <-. by eapply put_lists_grow.
    + destruct (put c k v) as [c2| |] eqn:Hp; simpl in Hstep; [|done..].
      injection Hstep as <- <-. by eapply put_lists_grow.
Qed.

(** X20.  A cache of capacity 1 holds exactly the key of the latest [get] or
    [put]: every miss evicts the one key there is. *)
Theorem X20_capacity_one_keeps_latest (h : list op) (o : op) (c : LFUCache)
    (k : K) :
  reachable_by (o :: h) c → mCapacity c = 1 → touches o k = true →
  keys c = {[k]}.
Proof.
  intros Hr Hcap Hk. inversion Hr as [|h' c0 o' c' r Hr0 Hstep]; subst.
  pose proof (reachable_by_Inv h c0 Hr0) as [HI _].
  rewrite (step_capacity o c0 c r HI Hstep) in Hcap.
  pose proof (inv_size c0 HI) as Hsz. rewrite Hcap in Hsz.
  assert (Hsize : size c0 = Z.of_nat (base.size (keys c0))).
  { unfold size, keys. by rewrite size_dom. }
  destruct (step_effect c0 c o r HI Hstep)
    as [[-> Hq]|[(k0 & m & v & l1 & l2 & Ho & Hk0 & _ & Ht & _)
                |(k0 & v & Ho & Hk0 & _ & Hc)]].
  - by rewrite Hq in Hk.
  - rewrite Ho in Hk. apply bool_decide_eq_true in Hk as ->.
    destruct (is_touch_keys _ _ _ _ _ _ _ Hk0 Ht) as [-> _].
    assert (Hin : k ∈ keys c0) by (unfold keys; by apply elem_of_dom_2 in Hk0).
    assert (Hone : base.size (keys c0) = 1%nat).
    { assert (base.size (keys c0) ≠ 0%nat); [|lia].
      intros ?%size_empty_iff. set_solver. }
    apply set_eq. intros x. rewrite elem_of_singleton. split.
    + intros Hx. by apply (size_singleton_inv (keys c0)).
    + by intros ->.
  - rewrite Ho in Hk. apply bool_decide_eq_true in Hk as ->.
    destruct Hc as [[Hroom ->]|[Hfull (e & l' & c1 & He & ->)]].
    + destruct (put_fresh_keys c0 k v Hk0) as [-> _].
      assert (Hempty : keys c0 ≡ ∅).
      { apply size_empty_iff. rewrite Hcap in Hroom. lia. }
      set_solver.
    + destruct (is_evict_victim c0 c1 e l' HI He) as (Hin & Hkeys & _).
      assert (Hk1 : mKeyMetaByKey c1 !! k = None).
      { destruct He as (_ & _ & _ & -> & _). rewrite lookup_delete.
        by destruct (decide (e = k)). }
      destruct (put_fresh_keys c1 k v Hk1) as [-> _]. rewrite Hkeys.
      assert (Hone : base.size (keys c0) = 1%nat) by (rewrite Hcap in Hfull; lia).
      assert (Hall : ∀ x, x ∈ keys c0 → x = e).
      { intros x Hx. by apply (size_singleton_inv (keys c0)). }
      set_solver.
Qed.

End LFU_more.

(** X17.  [main] runs to its end: on capacities 1, 1, 3 and 3 its four
    blocks make their calls without undefined behaviour, and none of its
    [assert]s fails. *)
Theorem X17_main_passes : main = Ok true.
Proof. vm_compute. reflexivity. Qed.

(** ** The further properties on the third block of [main] *)

Lemma many_step_put : step many (OpPut 4 4) = Ok (many_then_put, OutVoid).
Proof. vm_compute. reflexivity. Defined.

Lemma run_Ok_elim (c : int_cache) (ops : list int_op) (P : int_cache → Prop) :
  match run c ops with Ok c' => P c' | _ => True end →
  ∀ c', run c ops = Ok c' → P c'.
Proof. intros HP c' Hrun. by rewrite Hrun in HP. Defined.

Lemma X1_witness :
  reachable many ∧ (∀ k f, k ∈ bucket many f ↔ freq_of many k = Some f).
Proof.
  split; [apply many_reachable|].
  exact (proj1 (X1_index_and_lists_agree many many_reachable)).
Defined.

Lemma X2_witness :
  reachable_by (rev many_ops) many ∧ bucket many 2 = [] ++ 3 :: [1] ∧
  1 ∈ [1] ∧ fresher (rev many_ops) 3 1.
Proof.
  assert (Hb : bucket many 2 = [] ++ 3 :: [1]) by (vm_compute; reflexivity).
  assert (Hin : (1 : Z) ∈ [1]) by constructor.
  split; [apply many_reachable_by|]. split; [exact Hb|]. split; [exact Hin|].
  exact (X2_lists_ordered_by_recency (rev many_ops) many 2 [] [1] 3 1
           many_reachable_by Hb Hin).
Defined.

Lemma X3_witness :
  reachable many ∧ ∃ c' r, step many (OpGet 2) = Ok (c', r).
Proof.
  split; [apply many_reachable|].
  apply (proj2 (X3_undefined_only_by_overflow many (OpGet 2) many_reachable)).
  intros k Ht. apply bool_decide_eq_true in Ht as <-.
  vm_compute. discriminate.
Defined.

Lemma X4_witness :
  reachable many ∧ keys many ≠ ∅ ∧
  ∃ e c', evict many = Ok c' ∧ keys c' = keys many ∖ {[e]}.
Proof.
  assert (Hne : keys many ≠ ∅) by (vm_compute; discriminate).
  split; [apply many_reachable|]. split; [exact Hne|].
  destruct (proj2 (X4_evict_on_its_own many many_reachable) Hne)
    as (e & c' & He & _ & _ & Hk & _).
  exists e, c'. split; [exact He|exact Hk].
Defined.

Lemma X5_witness :
  reachable many ∧ contains many 9 = false ∧ touch many 9 = Undef.
Proof.
  assert (Hc : contains many 9 = false) by (vm_compute; reflexivity).
  split; [apply many_reachable|]. split; [exact Hc|].
  exact (proj1 (X5_touch_on_its_own many 9 many_reachable) Hc).
Defined.

Lemma X6_witness :
  reachable many ∧ step many (OpPut 4 4) = Ok (many_then_put, OutVoid) ∧
  (size many = mCapacity many → size many_then_put = mCapacity many_then_put).
Proof.
  split; [apply many_reachable|]. split; [apply many_step_put|].
  apply (X6_size_never_shrinks many many_then_put (OpPut 4 4) OutVoid
           many_reachable many_step_put).
Defined.

Lemma X7_witness :
  reachable many ∧ run many [OpPut 4 4] = Ok many_then_put ∧
  mCapacity many_then_put = mCapacity many.
Proof.
  assert (Hrun : run many [OpPut 4 4] = Ok many_then_put)
    by (vm_compute; reflexivity).
  split; [apply many_reachable|]. split; [exact Hrun|].
  exact (X7_capacity_is_immutable many many_then_put [OpPut 4 4]
           many_reachable Hrun).
Defined.

Lemma X8_witness :
  reachable many ∧ contains many 4 = false ∧
  ∃ c', put many 4 4 = Ok c' ∧ val_of c' 4 = Some 4 ∧ freq_of c' 4 = Some 1.
Proof.
  assert (Hc : contains many 4 = false) by (vm_compute; reflexivity).
  split; [apply many_reachable|]. split; [exact Hc|].
  destruct (X8_put_new_key many 4 4 many_reachable Hc)
    as (c' & Hp & Hv & Hf & _).
  exists c'. split; [exact Hp|]. split; [exact Hv|exact Hf].
Defined.

Lemma X9_witness :
  reachable many ∧ step many (OpPut 4 4) = Ok (many_then_put, OutVoid) ∧
  ∀ k, k ∈ keys many_then_put → k ∈ keys many ∨ touches (OpPut 4 4) k = true.
Proof.
  split; [apply many_reachable|]. split; [apply many_step_put|].
  apply (X9_at_most_one_key_leaves many many_then_put (OpPut 4 4) OutVoid
           many_reachable many_step_put).
Defined.

Lemma X10_witness :
  reachable many ∧ val_of many 2 = Some 4 ∧
  run many [OpGet 1; OpContains 7] = Ok (cache_after 3 (many_ops ++ [OpGet 1])) ∧
  val_of (cache_after 3 (many_ops ++ [OpGet 1])) 2 = Some 4.
Proof.
  assert (Hv : val_of many 2 = Some 4) by (vm_compute; reflexivity).
  assert (Hrun : run many [OpGet 1; OpContains 7]
                 = Ok (cache_after 3 (many_ops ++ [OpGet 1])))
    by (vm_compute; reflexivity).
  split; [apply many_reachable|]. split; [exact Hv|]. split; [exact Hrun|].
  apply (X10_value_kept_until_next_put many _ [OpGet 1; OpContains 7] 2 4
           many_reachable Hv Hrun).
  - intros v' Hin.
    apply elem_of_cons in Hin as [Hin|Hin]; [discriminate|].
    apply elem_of_cons in Hin as [Hin|Hin]; [discriminate|].
    by apply elem_of_nil in Hin.
  - intros n. destruct n as [|[|n]].
    + apply run_Ok_elim. vm_compute. reflexivity.
    + apply run_Ok_elim. vm_compute. reflexivity.
    + replace (take (S (S n)) [OpGet 1; OpContains 7])
        with [OpGet (K:=Z) (V:=Z) 1; OpContains 7] by (by destruct n).
      apply run_Ok_elim. vm_compute. reflexivity.
Defined.

Lemma X11_witness :
  reachable many ∧ val_of many 2 = Some 4 ∧ freq_of many 2 = Some 4 ∧
  4 < INT_MAX ∧ ∃ c', get many 2 = Ok (c', 4) ∧ put many 2 4 = Ok c'.
Proof.
  assert (Hv : val_of many 2 = Some 4) by (vm_compute; reflexivity).
  assert (Hf : freq_of many 2 = Some 4) by (vm_compute; reflexivity).
  assert (Hlt : 4 < INT_MAX) by reflexivity.
  split; [apply many_reachable|]. split; [exact Hv|]. split; [exact Hf|].
  split; [exact Hlt|].
  exact (X11_put_of_stored_value_is_get many 2 4 4 many_reachable Hv Hf Hlt).
Defined.

Lemma X12_witness :
  reachable_by (rev many_ops) many ∧ put many 4 4 = Ok many_then_put ∧
  freq_of many 2 = Some 4 ∧ freq_of many 1 = Some 2 ∧ 2 < 4 ∧
  2 ∈ keys many_then_put.
Proof.
  assert (Hp : put many 4 4 = Ok many_then_put) by (vm_compute; reflexivity).
  assert (H2 : freq_of many 2 = Some 4) by (vm_compute; reflexivity).
  assert (H1 : freq_of many 1 = Some 2) by (vm_compute; reflexivity).
  assert (Hlt : 2 < 4) by reflexivity.
  split; [apply many_reachable_by|]. split; [exact Hp|]. split; [exact H2|].
  split; [exact H1|]. split; [exact Hlt|].
  exact (X12_not_least_frequent_survives (rev many_ops) many many_then_put
           4 2 1 4 4 2 many_reachable_by Hp H2 H1 (or_introl Hlt)).
Defined.

Lemma X13_witness :
  reachable many ∧ get many 2 = Ok (many_then_get, 4) ∧
  contains many_then_get 2 = true ∧ val_of many_then_get 2 = Some 4.
Proof.
  assert (Hg : get many 2 = Ok (many_then_get, 4)) by (vm_compute; reflexivity).
  split; [apply many_reachable|]. split; [exact Hg|].
  exact (X13_touched_key_is_stored many many_then_get 2 4 many_reachable
           (or_introl Hg)).
Defined.

Lemma X14_witness :
  reachable_by (rev many_ops) many ∧ freq_of many 2 = Some 4 ∧
  1 ≤ 4 ≤ Z.of_nat (List.length (rev many_ops)) ∧ 4 ≤ INT_MAX.
Proof.
  assert (Hf : freq_of many 2 = Some 4) by (vm_compute; reflexivity).
  split; [apply many_reachable_by|]. split; [exact Hf|].
  exact (X14_frequency_bounds (rev many_ops) many 2 4 many_reachable_by Hf).
Defined.

Lemma X15_witness :
  reachable_by (rev many_ops) many ∧ empty many = false ∧ 1 ≤ mMinFreq many.
Proof.
  assert (He : empty many = false) by (vm_compute; reflexivity).
  split; [apply many_reachable_by|]. split; [exact He|].
  exact (proj2 (proj2 (X15_empty_until_first_touch (rev many_ops) many
                         many_reachable_by)) He).
Defined.

Lemma X16_witness :
  reachable_by (rev many_ops) many ∧
  Z.of_nat (base.size (touched (rev many_ops))) ≤ mCapacity many ∧
  keys many = touched (rev many_ops).
Proof.
  assert (Hfit : Z.of_nat (base.size (touched (rev many_ops))) ≤ mCapacity many)
    by (vm_compute; discriminate).
  split; [apply many_reachable_by|]. split; [exact Hfit|].
  exact (X16_no_eviction_when_keys_fit (rev many_ops) many many_reachable_by
           Hfit).
Defined.

Lemma X18_witness :
  run many [OpPut 4 4] = Ok many_then_put ∧
  dom (mKeysByFreq many) ⊆ dom (mKeysByFreq many_then_put).
Proof.
  assert (Hrun : run many [OpPut 4 4] = Ok many_then_put)
    by (vm_compute; reflexivity).
  split; [exact Hrun|].
  exact (X18_lists_are_never_removed many many_then_put [OpPut 4 4] Hrun).
Defined.

Lemma X20_witness :
  reachable_by (OpPut 2 2 :: [OpGet 1; OpPut 1 1]) one ∧
  mCapacity one = 1 ∧ touches (OpPut (K:=Z) (V:=Z) 2 2) 2 = true ∧
  keys one = {[2]}.
Proof.
  assert (Hr : reachable_by (OpPut 2 2 :: [OpGet 1; OpPut 1 1]) one).
  { apply (cache_after_reachable 1 one_ops). vm_compute. reflexivity. }
  assert (Hcap : mCapacity one = 1) by (vm_compute; reflexivity).
  split; [exact Hr|]. split; [exact Hcap|]. split; [reflexivity|].
  exact (X20_capacity_one_keeps_latest [OpGet 1; OpPut 1 1] (OpPut 2 2) one 2
           Hr Hcap eq_refl).
Defined.
